(** * Go-Promise: a shallow embedding of [promise/promise.go],
    [promise/aggregate.go], [promise/config.go] and of the static
    [Resolve]/[Reject], [Tap] and [Promisify] of [unnamed/part_002].

    The Go generic [Promise[T]] is modelled in two layers.

    - A section, generic in the value type [T] and in the type [H] of the
      queued handler closures, embeds the settlement core: the record fields,
      [Resolve]/[doResolve], [Reject]/[doReject] and [Await].
    - A world of promises (a [gmap] from pointers to records, the closure
      cells captured by the aggregators and a log of the user callbacks that
      ran) embeds [New], [Then], [Catch], [Tap], [Promisify], [Map], [All],
      [Any] and [AllSettled].  The
      handler closures are a first-order inductive type interpreted by
      [run_closure]; the nested execution of handlers (a handler settles a
      promise, which drains and runs that promise's handlers, ...) is bounded
      by a fuel argument, and running out of fuel yields [None], never a
      silent result.

    The dispatcher ([GlobalDispatcher]) is fixed to an inline dispatcher,
    [Dispatch(f) = f()], which [SetDispatcher] allows a host to install:
    every executor runs to completion inside the call that created its
    promise.  Data races and the goroutine dispatcher are not modelled. *)

From Stdlib Require Import ZArith.
From stdpp Require Import base gmap list strings.

#[local] Set Warnings "-register-all".

(** ** Core data *)

(** [type State uint32] with [Pending = 0], [Fulfilled = 1], [Rejected = 2]. *)
Inductive State := Pending | Fulfilled | Rejected.

#[global] Instance State_eq_dec : EqDecision State.
Proof. solve_decision. Defined.

(** A Go [error] value, observed through its [Error()] text. *)
Record error := mkError { Error : string }.

#[global] Instance error_eq_dec : EqDecision error.
Proof. solve_decision. Defined.

(** [type Promise[T any] struct { state; mu; val; err; handlers; signal }].
    The lock [mu] is not modelled (the model is sequential).  [handlers] is
    the intrusive linked list [*handlerNode], head first.  [signal] is the
    lazily made channel: [None] is the nil channel, [Some false] an open
    channel and [Some true] a closed one. *)
Record Promise (T H : Type) := mkPromise {
  state : State;
  val : T;
  err : option error;
  handlers : list H;
  signal : option bool
}.

Arguments mkPromise {T H} _ _ _ _ _.
Arguments state {T H} _.
Arguments val {T H} _.
Arguments err {T H} _.
Arguments handlers {T H} _.
Arguments signal {T H} _.

Section Core.
Context {T H : Type}.

(** [close(p.signal)] when the channel was made. *)
Definition close_signal (s : option bool) : option bool :=
  match s with
  | None => None
  | Some _ => Some true
  end.

(** [doResolve]: under the lock, re-check [Pending], store the value, set the
    state, cut the handler list and close the signal.  The drained list is
    returned: the caller runs it outside the lock ([p.runHandlers(h)]). *)
Definition doResolve (p : Promise T H) (v : T) : Promise T H * list H :=
  match state p with
  | Pending =>
      (mkPromise Fulfilled v (err p) [] (close_signal (signal p)), handlers p)
  | _ => (p, [])
  end.

(** [Resolve]: lock-free fast path, then [doResolve]. *)
Definition Resolve (p : Promise T H) (v : T) : Promise T H * list H :=
  match state p with
  | Pending => doResolve p v
  | _ => (p, [])
  end.

Definition doReject (p : Promise T H) (e : option error) : Promise T H * list H :=
  match state p with
  | Pending =>
      (mkPromise Rejected (val p) e [] (close_signal (signal p)), handlers p)
  | _ => (p, [])
  end.

Definition Reject (p : Promise T H) (e : option error) : Promise T H * list H :=
  match state p with
  | Pending => doReject p e
  | _ => (p, [])
  end.

(** [Await(ctx)] in two phases.  [Await_enter] is the code up to the
    [select]: fast path, locked re-check, lazy creation of the signal.
    [Await_wake] is the [select] once one of its cases fired. *)
Inductive await_step :=
  | AwaitReturned (r : T * option error)
  | AwaitBlocked.

(** Which [select] case fires: [ctx.Done()] (with [ctx.Err()], a non-nil
    error) or the closed [sig]. *)
Inductive wake_event :=
  | CtxDone (e : error)
  | Signalled.

(** [zero] is [*new(T)]. *)
Definition Await_enter (zero : T) (p : Promise T H) : Promise T H * await_step :=
  match state p with
  | Fulfilled => (p, AwaitReturned (val p, None))
  | Rejected => (p, AwaitReturned (zero, err p))
  | Pending =>
      (* p.mu.Lock(); re-check *)
      match state p with
      | Fulfilled => (p, AwaitReturned (val p, None))
      | Rejected => (p, AwaitReturned (zero, err p))
      | Pending =>
          let sig := match signal p with
                     | None => Some false  (* p.signal = make(chan struct{}) *)
                     | s => s
                     end in
          (mkPromise (state p) (val p) (err p) (handlers p) sig, AwaitBlocked)
      end
  end.

Definition Await_wake (zero : T) (p : Promise T H) (ev : wake_event) : T * option error :=
  match ev with
  | CtxDone e => (zero, Some e)
  | Signalled =>
      match state p with
      | Fulfilled => (val p, None)
      | _ => (zero, err p)
      end
  end.

End Core.

(** ** The world of promises *)

(** Go's type parameters are erased: every promise holds a [value].
    [VSettled] is a [SettledResult[T]] record. *)
Inductive value :=
  | VUnit
  | VInt (z : Z)
  | VStr (s : string)
  | VList (l : list value)
  | VSettled (st : State) (v : value) (reason : option error).

(** The argument of a [panic]: an [error], or any other value, given by its
    [%v] rendering. *)
Inductive payload :=
  | PanicErr (e : error)
  | PanicVal (s : string).

(** [handlePanic]: [err, ok := r.(error); if !ok { err = fmt.Errorf("panic: %v", r) }]. *)
Definition panic_error (r : payload) : error :=
  match r with
  | PanicErr e => e
  | PanicVal s => mkError (String.append "panic: " s)
  end.

(** A user function either returns or panics. *)
Inductive ret (A : Type) :=
  | Ret (a : A)
  | Raise (r : payload).
Arguments Ret {A} _.
Arguments Raise {A} _.

(** The [onFulfilled func(T) T] closures: a user callback (its name is
    logged when it runs), or the one [Map] passes to [Then]. *)
Inductive on_fulfilled :=
  | OnFUser (name : string) (f : value -> ret value)
  | OnFMap (mapper : value -> ret (value * option error)) (outer : nat).

(** The [onRejected func(error) error] closures. *)
Inductive on_rejected :=
  | OnRUser (name : string) (f : option error -> ret (option error))
  | OnRMap (outer : nat).

(** The handler closures queued on a promise: [handle] of [Then], and the
    [handler] closures of [All], [Any] and [AllSettled] (with the indices of
    the promises and of the closure cells they captured). *)
Inductive closure :=
  | HThen (src child : nat) (onF : option on_fulfilled) (onR : option on_rejected)
  | HAll (agg idx target out : nat)
  | HAny (agg target out : nat)
  | HAllSettled (agg idx target out : nat) (zero : value).

Abbreviation prom := (Promise value closure).

(** The variables captured by an aggregator's closures: [results],
    [pending] (an [int32]) and [doneFlag]/[successFlag] (an [int32]). *)
Record Agg := mkAgg { results : list value; pending : Z; flag : Z }.

Record World := mkWorld {
  store : gmap nat prom;
  aggs : gmap nat Agg;
  next : nat;
  log : list string
}.

Definition set_store (s : gmap nat prom) (w : World) : World :=
  mkWorld s (aggs w) (next w) (log w).
Definition set_aggs (a : gmap nat Agg) (w : World) : World :=
  mkWorld (store w) a (next w) (log w).
Definition add_log (n : string) (w : World) : World :=
  mkWorld (store w) (aggs w) (next w) (log w ++ [n]).

(** [int32(z)]: two's-complement wrap-around to 32 bits. *)
Definition int32 (z : Z) : Z := ((z + 2 ^ 31) mod 2 ^ 32 - 2 ^ 31)%Z.

(** State and failure (out of fuel). *)
Definition M (A : Type) : Type := World -> option (A * World).
Definition mret {A} (a : A) : M A := fun w => Some (a, w).
Definition mbindM {A B} (m : M A) (k : A -> M B) : M B :=
  fun w => match m w with
           | None => None
           | Some (a, w') => k a w'
           end.
Notation "x <-- m ; k" := (mbindM m (fun x => k))
  (at level 100, m at next level, right associativity).
Notation "m ;;; k" := (mbindM m (fun _ : unit => k))
  (at level 100, right associativity).

(** The outcome a settlement stores. *)
Inductive outcome :=
  | OFul (v : value)
  | ORej (e : option error).

(** [p.Resolve(v)] / [p.Reject(e)] on the promise at [id]: settle the record
    and run the drained handlers with [runner] ([p.runHandlers]). *)
Definition settle (runner : list closure -> M unit) (id : nat) (o : outcome) : M unit :=
  fun w =>
    match store w !! id with
    | None => Some (tt, w)
    | Some p =>
        let '(p', hs) := match o with
                         | OFul v => Resolve p v
                         | ORej e => Reject p e
                         end in
        runner hs (set_store (<[id := p']> (store w)) w)
    end.

Definition resolve_panic (runner : list closure -> M unit) (id : nat) (r : payload) : M unit :=
  settle runner id (ORej (Some (panic_error r))).

(** The body of [handle] in [Then]: [defer handlePanic(reject)], then the
    branch on the source's state.  [resolve(onFulfilled(p.val))] runs the
    callback first, then settles the child. *)
Definition run_then (runner : list closure -> M unit) (src child : nat)
    (onF : option on_fulfilled) (onR : option on_rejected) : M unit :=
  fun w =>
    match store w !! src with
    | None => Some (tt, w)
    | Some p =>
        match state p with
        | Fulfilled =>
            match onF with
            | None => settle runner child (OFul (val p)) w
            | Some (OnFUser n f) =>
                match f (val p) with
                | Ret r => settle runner child (OFul r) (add_log n w)
                | Raise r => resolve_panic runner child r (add_log n w)
                end
            | Some (OnFMap mapper outer) =>
                (* if res, err := mapper(val); err != nil { reject(err) } else { resolve(res) }; return val *)
                match mapper (val p) with
                | Raise r => resolve_panic runner child r w
                | Ret (_, Some e) =>
                    (settle runner outer (ORej (Some e)) ;;;
                     settle runner child (OFul (val p))) w
                | Ret (res, None) =>
                    (settle runner outer (OFul res) ;;;
                     settle runner child (OFul (val p))) w
                end
            end
        | Rejected =>
            match onR with
            | None => settle runner child (ORej (err p)) w
            | Some (OnRUser n f) =>
                match f (err p) with
                | Ret e => settle runner child (ORej e) (add_log n w)
                | Raise r => resolve_panic runner child r (add_log n w)
                end
            | Some (OnRMap outer) =>
                (* reject(err); return err *)
                (settle runner outer (ORej (err p)) ;;;
                 settle runner child (ORej (err p))) w
            end
        | Pending => Some (tt, w)
        end
    end.

Definition get_agg (a : nat) (w : World) : Agg :=
  default (mkAgg [] 0%Z 0%Z) (aggs w !! a).

Definition put_agg (a : nat) (g : Agg) (w : World) : World :=
  set_aggs (<[a := g]> (aggs w)) w.

(** The [handler] closure of [All]. *)
Definition run_all (runner : list closure -> M unit) (a idx target out : nat) : M unit :=
  fun w =>
    match store w !! target with
    | None => Some (tt, w)
    | Some tp =>
        let g := get_agg a w in
        match state tp with
        | Fulfilled =>
            if decide (flag g = 1%Z) then Some (tt, w) else
            let res := <[idx := val tp]> (results g) in
            let pend := int32 (pending g - 1)%Z in
            let w1 := put_agg a (mkAgg res pend (flag g)) w in
            if decide (pend = 0%Z) then
              (* atomic.CompareAndSwapInt32(&doneFlag, 0, 1) *)
              if decide (flag g = 0%Z) then
                settle runner out (OFul (VList res)) (put_agg a (mkAgg res pend 1%Z) w)
              else Some (tt, w1)
            else Some (tt, w1)
        | _ =>
            if decide (flag g = 0%Z) then
              settle runner out (ORej (err tp)) (put_agg a (mkAgg (results g) (pending g) 1%Z) w)
            else Some (tt, w)
        end
    end.

Definition all_rejected_error : error := mkError "aggregate error: all promises rejected".
Definition no_promises_error : error := mkError "aggregate error: no promises".

(** The [handler] closure of [Any]; [flag] is [successFlag]. *)
Definition run_any (runner : list closure -> M unit) (a target out : nat) : M unit :=
  fun w =>
    match store w !! target with
    | None => Some (tt, w)
    | Some tp =>
        let g := get_agg a w in
        match state tp with
        | Fulfilled =>
            if decide (flag g = 0%Z) then
              settle runner out (OFul (val tp)) (put_agg a (mkAgg (results g) (pending g) 1%Z) w)
            else Some (tt, w)
        | _ =>
            let pend := int32 (pending g - 1)%Z in
            let w1 := put_agg a (mkAgg (results g) pend (flag g)) w in
            if decide (pend = 0%Z) then
              if decide (flag g = 0%Z) then settle runner out (ORej (Some all_rejected_error)) w1
              else Some (tt, w1)
            else Some (tt, w1)
        end
    end.

(** The [handler] closure of [AllSettled]. *)
Definition run_allsettled (runner : list closure -> M unit) (a idx target out : nat)
    (zero : value) : M unit :=
  fun w =>
    match store w !! target with
    | None => Some (tt, w)
    | Some tp =>
        let g := get_agg a w in
        let r := match state tp with
                 | Fulfilled => VSettled Fulfilled (val tp) None
                 | _ => VSettled Rejected zero (err tp)
                 end in
        let res := <[idx := r]> (results g) in
        let pend := int32 (pending g - 1)%Z in
        let w1 := put_agg a (mkAgg res pend (flag g)) w in
        if decide (pend = 0%Z) then settle runner out (OFul (VList res)) w1
        else Some (tt, w1)
    end.

Definition run_closure (runner : list closure -> M unit) (h : closure) : M unit :=
  match h with
  | HThen src child onF onR => run_then runner src child onF onR
  | HAll a idx target out => run_all runner a idx target out
  | HAny a target out => run_any runner a target out
  | HAllSettled a idx target out zero => run_allsettled runner a idx target out zero
  end.

(** The loop of [runHandlers]: each closure runs in turn, head first.  The
    [recover] around each call never fires: every closure above catches its
    own user panics. *)
Fixpoint run_list (rc : closure -> M unit) (hs : list closure) : M unit :=
  match hs with
  | [] => mret tt
  | h :: t => rc h ;;; run_list rc t
  end.

Fixpoint run_handlers (fuel : nat) (hs : list closure) : M unit :=
  match hs with
  | [] => mret tt
  | _ =>
      match fuel with
      | 0 => fun _ => None
      | S f => run_list (run_closure (run_handlers f)) hs
      end
  end.

(** ** Constructors and combinators *)

(** [&Promise[T]{}]: a pending promise.  Its [val] field is the zero of [T]
    in Go; no path reads [val] of a pending promise, so [VUnit] stands for it. *)
Definition empty_promise : prom := mkPromise Pending VUnit None [] None.

(** Allocate a fresh pointer. *)
Definition alloc (p : prom) : M nat :=
  fun w => Some (next w, mkWorld (<[next w := p]> (store w)) (aggs w) (S (next w)) (log w)).

Definition alloc_agg (g : Agg) : M nat :=
  fun w => Some (next w, mkWorld (store w) (<[next w := g]> (aggs w)) (S (next w)) (log w)).

(** [New(executor)] with the inline dispatcher:
    [Dispatch(func() { defer handlePanic(p.Reject); executor(p.Resolve, p.Reject) })].
    An executor body returns [Some r] when it panicked with [r]. *)
Definition New (runner : list closure -> M unit) (body : nat -> M (option payload)) : M nat :=
  id <-- alloc empty_promise ;
  r <-- body id ;
  match r with
  | None => mret id
  | Some pl => resolve_panic runner id pl ;;; mret id
  end.

(** Static [Resolve(val)] and [Reject(err)] (source part_002): an already
    settled promise. *)
Definition ResolveStatic (v : value) : M nat :=
  alloc (mkPromise Fulfilled v None [] None).

Definition RejectStatic (e : option error) : M nat :=
  alloc (mkPromise Rejected VUnit e [] None).

(** A user executor: a straight-line program over [resolve], [reject],
    [panic] and other work (recorded in the log). *)
Inductive instr :=
  | XLog (s : string)
  | XResolve (v : value)
  | XReject (e : option error)
  | XPanic (r : payload).

Fixpoint run_script (runner : list closure -> M unit) (id : nat) (prog : list instr) : M (option payload) :=
  match prog with
  | [] => mret None
  | XLog s :: t => (fun w => Some (tt, add_log s w)) ;;; run_script runner id t
  | XResolve v :: t => settle runner id (OFul v) ;;; run_script runner id t
  | XReject e :: t => settle runner id (ORej e) ;;; run_script runner id t
  | XPanic r :: _ => mret (Some r)
  end.

Definition NewScript (runner : list closure -> M unit) (prog : list instr) : M nat :=
  New runner (fun id => run_script runner id prog).

(** The registration shared by [Then] and the aggregators: fast path when
    [target] is settled (run the closure now), else, under the lock and
    after the re-check, head insertion [node.next = p.handlers;
    p.handlers = node]. *)
Definition attach (runner : list closure -> M unit) (target : nat) (h : closure) : M unit :=
  fun w =>
    match store w !! target with
    | None => Some (tt, w)
    | Some p =>
        match state p with
        | Pending =>
            Some (tt, set_store (<[target := mkPromise (state p) (val p) (err p)
                                            (h :: handlers p) (signal p)]> (store w)) w)
        | _ => run_closure runner h w
        end
    end.

(** [p.Then(onFulfilled, onRejected)]: [New] whose executor attaches [handle]. *)
Definition Then (runner : list closure -> M unit) (src : nat)
    (onF : option on_fulfilled) (onR : option on_rejected) : M nat :=
  New runner (fun child => attach runner src (HThen src child onF onR) ;;; mret None).

(** [Map(p, mapper)]: [New] whose executor calls [p.Then] with the two
    closures that settle the mapped promise. *)
Definition Map (runner : list closure -> M unit) (src : nat)
    (mapper : value -> ret (value * option error)) : M nat :=
  New runner (fun outer =>
    _ <-- Then runner src (Some (OnFMap mapper outer)) (Some (OnRMap outer)) ;
    mret None).

(** The [for i, p := range promises] loops of the aggregators. *)
Fixpoint attach_all (runner : list closure -> M unit) (mk : nat -> nat -> closure)
    (i : nat) (targets : list nat) : M unit :=
  match targets with
  | [] => mret tt
  | t :: ts => attach runner t (mk i t) ;;; attach_all runner mk (S i) ts
  end.

(** [All(promises...)].  [make([]T, count)] holds zeros of [T], none of which
    is read before it is overwritten; [VUnit] stands for them. *)
Definition All (runner : list closure -> M unit) (inputs : list nat) : M nat :=
  New runner (fun out =>
    let count := length inputs in
    if decide (count = 0) then settle runner out (OFul (VList [])) ;;; mret None else
    a <-- alloc_agg (mkAgg (repeat VUnit count) (int32 (Z.of_nat count)) 0%Z) ;
    attach_all runner (fun i t => HAll a i t out) 0 inputs ;;;
    mret None).

(** [Any(promises...)]. *)
Definition Any (runner : list closure -> M unit) (inputs : list nat) : M nat :=
  New runner (fun out =>
    if decide (length inputs = 0) then
      settle runner out (ORej (Some no_promises_error)) ;;; mret None else
    a <-- alloc_agg (mkAgg [] (int32 (Z.of_nat (length inputs))) 0%Z) ;
    attach_all runner (fun _ t => HAny a t out) 0 inputs ;;;
    mret None).

(** [AllSettled(promises...)]; [zero] is the zero value of [T], stored in
    the [Value] field of a [Rejected] record. *)
Definition AllSettled (runner : list closure -> M unit) (zero : value) (inputs : list nat) : M nat :=
  New runner (fun out =>
    let count := length inputs in
    if decide (count = 0) then settle runner out (OFul (VList [])) ;;; mret None else
    a <-- alloc_agg (mkAgg (repeat (VSettled Pending VUnit None) count) (int32 (Z.of_nat count)) 0%Z) ;
    attach_all runner (fun i t => HAllSettled a i t out zero) 0 inputs ;;;
    mret None).

(** Top-level calls run the drained handlers with [fuel] levels of nesting. *)
Definition resolve_at (fuel : nat) (id : nat) (v : value) : M unit :=
  settle (run_handlers fuel) id (OFul v).
Definition reject_at (fuel : nat) (id : nat) (e : option error) : M unit :=
  settle (run_handlers fuel) id (ORej e).

Definition lookup_promise (id : nat) (w : World) : option prom := store w !! id.

Definition empty_world : World := mkWorld ∅ ∅ 0 [].

(** [p.GetState()]. *)
Definition GetState {T H} (p : Promise T H) : State := state p.

(** A later call of [p.Resolve] or [p.Reject]. *)
Inductive settle_call (T : Type) :=
  | CallResolve (v : T)
  | CallReject (e : option error).
Arguments CallResolve {T} _.
Arguments CallReject {T} _.

Definition apply_call {T H} (p : Promise T H) (c : settle_call T) : Promise T H * list H :=
  match c with
  | CallResolve v => Resolve p v
  | CallReject e => Reject p e
  end.

(** A sequence of calls: the final record and every handler list drained. *)
Fixpoint apply_calls {T H} (p : Promise T H) (cs : list (settle_call T)) : Promise T H * list H :=
  match cs with
  | [] => (p, [])
  | c :: t =>
      let '(p1, h1) := apply_call p c in
      let '(p2, h2) := apply_calls p1 t in
      (p2, h1 ++ h2)
  end.

(** The settled outcome of a record. *)
Definition outcome_of (p : prom) : option outcome :=
  match state p with
  | Pending => None
  | Fulfilled => Some (OFul (val p))
  | Rejected => Some (ORej (err p))
  end.

Definition fresh (w : World) : Prop :=
  forall k, next w <= k -> store w !! k = None.

(** The test [TestPromise_ExecutionOrder_FIFO]: three [Then] callbacks A, B,
    C registered on a pending promise, which is then resolved. *)
Definition logging_callback (n : string) : option on_fulfilled :=
  Some (OnFUser n (fun v => Ret v)).

Definition fifo_scenario (fuel : nat) : M unit :=
  p <-- NewScript (run_handlers fuel) [] ;
  _ <-- Then (run_handlers fuel) p (logging_callback "A") None ;
  _ <-- Then (run_handlers fuel) p (logging_callback "B") None ;
  _ <-- Then (run_handlers fuel) p (logging_callback "C") None ;
  resolve_at fuel p (VStr "done").

(** The outcome fixed by the first [resolve], [reject] or [panic] of an
    executor script ([handlePanic] turns a panic into a rejection). *)
Fixpoint first_settlement (prog : list instr) : option outcome :=
  match prog with
  | [] => None
  | XLog _ :: t => first_settlement t
  | XResolve v :: _ => Some (OFul v)
  | XReject e :: _ => Some (ORej e)
  | XPanic r :: _ => Some (ORej (Some (panic_error r)))
  end.

(** The text of a panic payload: [Error()] of an error, [%v] otherwise. *)
Definition payload_text (r : payload) : string :=
  match r with
  | PanicErr e => Error e
  | PanicVal s => s
  end.

Definition contains (s t : string) : Prop :=
  exists pre post, s = String.append pre (String.append t post).

Definition is_log (i : instr) : Prop :=
  match i with XLog _ => True | _ => False end.


(** ** Aggregators: settlement schedules and reference functions *)

(** External settlements of the inputs after the aggregator was created:
    [(i, o)] is [promises[i].Resolve(v)] (for [o = OFul v]) or
    [promises[i].Reject(e)] (for [o = ORej e]). *)
Fixpoint run_schedule (fuel : nat) (l : list nat) (sched : list (nat * outcome)) : M unit :=
  match sched with
  | [] => mret tt
  | (i, o) :: t => settle (run_handlers fuel) (default 0 (l !! i)) o ;;; run_schedule fuel l t
  end.

(** The inputs already settled when the aggregator is created, in input
    order: the aggregator's loop meets them in that order. *)
Fixpoint initial_events_from (k : nat) (st : gmap nat prom) (ts : list nat) : list (nat * outcome) :=
  match ts with
  | [] => []
  | t :: r =>
      match st !! t ≫= outcome_of with
      | Some o => [(k, o)]
      | None => []
      end ++ initial_events_from (S k) st r
  end.

Definition initial_events (w : World) (l : list nat) : list (nat * outcome) :=
  initial_events_from 0 (store w) l.

(** Every input exists; a pending input has no handler yet. *)
Definition inputs_ready (w : World) (l : list nat) : Prop :=
  forall i t, l !! i = Some t ->
    exists p, store w !! t = Some p /\ (state p = Pending -> handlers p = []).

(** The aggregate promise after [agg(l)] followed by [sched]. *)
Definition aggregate_then (fuel : nat) (agg : M nat) (l : list nat)
    (sched : list (nat * outcome)) : M nat :=
  out <-- agg ; run_schedule fuel l sched ;;; mret out.

(** Reference for [All], following its specification: the values seen so
    far, by input position, and the final outcome once decided.  It resolves
    with the values in input order once every input is fulfilled, rejects
    with the first rejection met, ignores every settlement after that, and
    resolves at once with the empty list when there is no input. *)
Record AllAbs := mkAllAbs { seen : list (option value); fin : option outcome }.

Definition all_init (n : nat) : AllAbs :=
  mkAllAbs (repeat None n) (if decide (n = 0) then Some (OFul (VList [])) else None).

Definition all_step (s : AllAbs) (ev : nat * outcome) : AllAbs :=
  match fin s with
  | Some _ => s
  | None =>
      let '(i, o) := ev in
      match seen s !! i with
      | Some None =>
          match o with
          | OFul v =>
              let seen' := <[i := Some v]> (seen s) in
              mkAllAbs seen' (match mapM (fun x : option value => x) seen' with
                              | Some vs => Some (OFul (VList vs))
                              | None => None
                              end)
          | ORej e => mkAllAbs (seen s) (Some (ORej e))
          end
      | _ => s  (* an input settles once *)
      end
  end.

Definition all_spec (n : nat) (evs : list (nat * outcome)) : option outcome :=
  fin (foldl all_step (all_init n) evs).

(** Invariant of the [All] proof, for inputs [l] of the initial world [w0],
    the aggregate promise [out] and the closure cell [a]; positions below
    [k] are registered. *)
Fixpoint count_none {A} (l : list (option A)) : nat :=
  match l with
  | [] => 0
  | None :: t => S (count_none t)
  | Some _ :: t => count_none t
  end.

Definition all_out_ok (out : nat) (w : World) (s : AllAbs) : Prop :=
  exists po, store w !! out = Some po /\ handlers po = [] /\ outcome_of po = fin s.

Definition all_agg_ok (n a : nat) (w : World) (s : AllAbs) : Prop :=
  exists g, aggs w !! a = Some g /\
    (fin s = None -> flag g = 0%Z /\ pending g = Z.of_nat (count_none (seen s)) /\
       length (results g) = n /\
       (forall i v, seen s !! i = Some (Some v) -> results g !! i = Some v)) /\
    (fin s <> None -> flag g = 1%Z).

Definition all_input_ok (w0 : World) (a out k : nat) (w : World) (s : AllAbs) (i t : nat) : Prop :=
  if decide (i < k) then
    exists p, store w !! t = Some p /\
      (state p = Pending -> handlers p = [HAll a i t out]) /\
      (fin s = None ->
         (state p = Pending /\ seen s !! i = Some None) \/
         (state p = Fulfilled /\ seen s !! i = Some (Some (val p))))
  else store w !! t = store w0 !! t /\ (fin s = None -> seen s !! i = Some None).

Definition all_inv (w0 : World) (l : list nat) (a out k : nat) (w : World) (s : AllAbs) : Prop :=
  all_out_ok out w s /\ all_agg_ok (length l) a w s /\ length (seen s) = length l /\
  forall i t, l !! i = Some t -> all_input_ok w0 a out k w s i t.

(** Sample inputs. *)
Definition pending_nat : Promise nat nat := mkPromise Pending 0 None [] None.

Definition settled_world : World :=
  mkWorld {[0 := mkPromise Fulfilled (VInt 100) None [] None]} ∅ 1 [].

(** The record a settlement stores. *)
Definition settled_record (p : prom) (o : outcome) : prom :=
  fst (match o with OFul v => Resolve p v | ORej e => Reject p e end).

(** The inputs of the example [All(resolved(1), resolved(2), pending)]. *)
Definition agg_world : World :=
  mkWorld (<[2 := mkPromise Pending VUnit None [] None]>
           (<[1 := mkPromise Fulfilled (VInt 2) None [] None]>
            {[0 := mkPromise Fulfilled (VInt 1) None [] None]})) ∅ 3 [].

Definition agg_inputs : list nat := [0; 1; 2].

(** Reference for [Any], following its specification: the state of each
    input as far as its settlements go, and the final outcome once decided.
    It resolves with the first fulfilled value, rejects with the aggregate
    "all rejected" error only once every input has rejected, ignores every
    settlement after the outcome is decided, and rejects at once with the
    aggregate "no promises" error when there is no input. *)
Record AnyAbs := mkAnyAbs { astates : list State; afin : option outcome }.

Definition any_init (n : nat) : AnyAbs :=
  mkAnyAbs (repeat Pending n)
    (if decide (n = 0) then Some (ORej (Some no_promises_error)) else None).

Definition outcome_state (o : outcome) : State :=
  match o with OFul _ => Fulfilled | ORej _ => Rejected end.

Definition any_step (s : AnyAbs) (ev : nat * outcome) : AnyAbs :=
  let '(i, o) := ev in
  match astates s !! i with
  | Some Pending =>
      let st' := <[i := outcome_state o]> (astates s) in
      mkAnyAbs st'
        (match afin s with
         | Some r => Some r
         | None =>
             match o with
             | OFul v => Some (OFul v)
             | ORej _ =>
                 if forallb (fun x => bool_decide (x = Rejected)) st'
                 then Some (ORej (Some all_rejected_error)) else None
             end
         end)
  | _ => s  (* an input settles once *)
  end.

Definition any_spec (n : nat) (evs : list (nat * outcome)) : option outcome :=
  afin (foldl any_step (any_init n) evs).

(** Invariant of the [Any] proof. *)
Fixpoint count_unrejected (l : list State) : nat :=
  match l with
  | [] => 0
  | Rejected :: t => count_unrejected t
  | _ :: t => S (count_unrejected t)
  end.

Definition any_out_ok (out : nat) (w : World) (s : AnyAbs) : Prop :=
  exists po, store w !! out = Some po /\ handlers po = [] /\ outcome_of po = afin s.

Definition any_agg_ok (a : nat) (w : World) (s : AnyAbs) : Prop :=
  exists g, aggs w !! a = Some g /\
    pending g = Z.of_nat (count_unrejected (astates s)) /\
    (afin s = None -> flag g = 0%Z) /\
    (forall v, afin s = Some (OFul v) -> flag g = 1%Z) /\
    (forall e, afin s = Some (ORej e) -> count_unrejected (astates s) = 0).

Definition any_input_ok (w0 : World) (a out k : nat) (w : World) (s : AnyAbs) (i t : nat) : Prop :=
  if decide (i < k) then
    exists p, store w !! t = Some p /\
      (state p = Pending -> handlers p = [HAny a t out]) /\ astates s !! i = Some (state p)
  else store w !! t = store w0 !! t /\ astates s !! i = Some Pending.

Definition any_inv (w0 : World) (l : list nat) (a out k : nat) (w : World) (s : AnyAbs) : Prop :=
  any_out_ok out w s /\ any_agg_ok a w s /\ length (astates s) = length l /\
  forall i t, l !! i = Some t -> any_input_ok w0 a out k w s i t.

(** Reference for [AllSettled], following its specification: the record
    of each input settled so far, by input position, and the final outcome:
    the records in input order once every input has settled, each tagged
    [Fulfilled] with the value or [Rejected] with the reason (and the zero
    value); the empty list at once when there is no input.  It never
    rejects. *)
Record SettledAbs := mkSettledAbs { records : list (option value); sfin : option outcome }.

Definition settled_result (zero : value) (o : outcome) : value :=
  match o with
  | OFul v => VSettled Fulfilled v None
  | ORej e => VSettled Rejected zero e
  end.

Definition allsettled_init (n : nat) : SettledAbs :=
  mkSettledAbs (repeat None n) (if decide (n = 0) then Some (OFul (VList [])) else None).

Definition allsettled_step (zero : value) (s : SettledAbs) (ev : nat * outcome) : SettledAbs :=
  let '(i, o) := ev in
  match records s !! i with
  | Some None =>
      let rs := <[i := Some (settled_result zero o)]> (records s) in
      mkSettledAbs rs (match mapM (fun x : option value => x) rs with
                       | Some vs => Some (OFul (VList vs))
                       | None => None
                       end)
  | _ => s  (* an input settles once *)
  end.

Definition allsettled_spec (zero : value) (n : nat) (evs : list (nat * outcome)) : option outcome :=
  sfin (foldl (allsettled_step zero) (allsettled_init n) evs).

(** Invariant of the [AllSettled] proof. *)
Definition settled_out_ok (out : nat) (w : World) (s : SettledAbs) : Prop :=
  exists po, store w !! out = Some po /\ handlers po = [] /\ outcome_of po = sfin s.

Definition settled_agg_ok (n a : nat) (w : World) (s : SettledAbs) : Prop :=
  exists g, aggs w !! a = Some g /\
    pending g = Z.of_nat (count_none (records s)) /\ length (results g) = n /\
    (forall i v, records s !! i = Some (Some v) -> results g !! i = Some v) /\
    (count_none (records s) <> 0 -> sfin s = None).

Definition settled_input_ok (w0 : World) (a out : nat) (zero : value) (k : nat) (w : World)
    (s : SettledAbs) (i t : nat) : Prop :=
  if decide (i < k) then
    exists p, store w !! t = Some p /\
      (state p = Pending -> handlers p = [HAllSettled a i t out zero] /\ records s !! i = Some None) /\
      (forall o, outcome_of p = Some o -> records s !! i = Some (Some (settled_result zero o)))
  else store w !! t = store w0 !! t /\ records s !! i = Some None.

Definition settled_inv (w0 : World) (l : list nat) (a out : nat) (zero : value) (k : nat)
    (w : World) (s : SettledAbs) : Prop :=
  settled_out_ok out w s /\ settled_agg_ok (length l) a w s /\ length (records s) = length l /\
  forall i t, l !! i = Some t -> settled_input_ok w0 a out zero k w s i t.
(** The inputs of the example [Any(rejected("bad"), pending, pending)]. *)
Definition any_world : World :=
  mkWorld (<[2 := mkPromise Pending VUnit None [] None]>
           (<[1 := mkPromise Pending VUnit None [] None]>
            {[0 := mkPromise Rejected VUnit (Some (mkError "bad")) [] None]})) ∅ 3 [].

(** The inputs of the example [AllSettled(resolved("ok"), rejected("bad"), pending)]. *)
Definition allsettled_world : World :=
  mkWorld (<[2 := mkPromise Pending VUnit None [] None]>
           (<[1 := mkPromise Rejected VUnit (Some (mkError "bad")) [] None]>
            {[0 := mkPromise Fulfilled (VStr "ok") None [] None]})) ∅ 3 [].

(** ** Further combinators (source part_002 and [Catch]) *)

(** [p.Catch(onRejected)]: [p.Then(nil, onRejected)]. *)
Definition Catch (runner : list closure -> M unit) (src : nat) (onR : option on_rejected) : M nat :=
  Then runner src None onR.

(** [p.Tap(onTap)]: [onTap(val, nil); return val] on fulfilment and
    [onTap(zero, err); return err] on rejection, where [zero] is the zero
    value of [T] ([new(T)] dereferenced); [name] is the name logged when
    [onTap] runs. *)
Definition Tap (runner : list closure -> M unit) (zero : value) (src : nat) (name : string)
    (onTap : value -> option error -> ret unit) : M nat :=
  Then runner src
    (Some (OnFUser name (fun v => match onTap v None with Ret _ => Ret v | Raise r => Raise r end)))
    (Some (OnRUser name (fun e => match onTap zero e with Ret _ => Ret e | Raise r => Raise r end))).


(** ** Theorems *)

Section CoreFacts.
Context {T H : Type}.

Lemma apply_calls_settled (p : Promise T H) (cs : list (settle_call T)) :
  state p <> Pending -> apply_calls p cs = (p, []).
Proof.
  intros Hs. induction cs as [|c t IH]; [done|].
  simpl. destruct c; simpl; unfold Resolve, Reject;
    destruct (state p); try congruence; rewrite IH; done.
Qed.

(** C2: after a first successful [Resolve(v)] (resp. [Reject(e)]) on a
    pending promise, every further [Resolve]/[Reject] leaves the record
    unchanged and drains no handler: [GetState()] stays [Fulfilled] and the
    value stays [v] (resp. [Rejected] and [e]). *)
Theorem settle_exactly_once (p : Promise T H) (v : T) (e : option error)
    (cs : list (settle_call T)) :
  GetState p = Pending ->
  (let p1 := fst (Resolve p v) in
   GetState p1 = Fulfilled /\ val p1 = v /\
   apply_calls p1 cs = (p1, [])) /\
  (let p1 := fst (Reject p e) in
   GetState p1 = Rejected /\ err p1 = e /\
   apply_calls p1 cs = (p1, [])).
Proof.
  unfold GetState. intros Hp.
  unfold Resolve, Reject, doResolve, doReject. rewrite Hp. simpl.
  split; (split; [done | split; [done |]]); apply apply_calls_settled; done.
Qed.

(** C8: when [ctx.Done()] fires before settlement, [Await] returns the
    cancellation error and the promise keeps its state, value, error and
    handler list (only the lazily made signal channel may be new); the
    producer can still settle it afterwards. *)
Theorem await_cancel_leaves_promise (zero : T) (p : Promise T H) (e : error) :
  GetState p = Pending ->
  let '(p', st) := Await_enter zero p in
  st = AwaitBlocked /\
  Await_wake zero p' (CtxDone e) = (zero, Some e) /\
  state p' = state p /\ val p' = val p /\ err p' = err p /\
  handlers p' = handlers p /\
  (forall v, GetState (fst (Resolve p' v)) = Fulfilled /\ val (fst (Resolve p' v)) = v) /\
  (forall e', GetState (fst (Reject p' e')) = Rejected /\ err (fst (Reject p' e')) = e').
Proof.
  unfold GetState. intros Hp. unfold Await_enter. rewrite Hp. simpl.
  unfold Resolve, Reject, doResolve, doReject. simpl.
  repeat split; rewrite ?Hp; done.
Qed.

(** C10: whenever [Await] returns a non-nil error (a rejection or a
    cancellation), the value returned with it is [*new(T)]; the stored value
    is only returned with a nil error.  Both the immediate return paths and
    the return after the [select] are covered, for any state of the promise
    at wake-up. *)
Theorem await_error_zero_value (zero : T) (p q : Promise T H) (ev : wake_event) :
  (match snd (Await_enter zero p) with
   | AwaitReturned (x, Some _) => x = zero
   | AwaitReturned (x, None) => x = zero \/ (state p = Fulfilled /\ x = val p)
   | AwaitBlocked => True
   end) /\
  (match Await_wake zero q ev with
   | (x, Some _) => x = zero
   | (x, None) => x = zero \/ (state q = Fulfilled /\ x = val q)
   end).
Proof.
  split.
  - unfold Await_enter. destruct (state p) eqn:E; simpl.
    + exact I.
    + right; split; reflexivity.
    + destruct (err p); [reflexivity | left; reflexivity].
  - destruct ev as [e|]; simpl; [done|].
    destruct (state q) eqn:E; simpl; try (destruct (err q); auto).
Qed.

End CoreFacts.

(** ** World-level facts *)


Lemma world_eta (w : World) : mkWorld (store w) (aggs w) (next w) (log w) = w.
Proof. by destruct w. Qed.

(** Settling an already settled promise changes nothing. *)
Lemma settle_settled (runner : list closure -> M unit) (w : World) (id : nat) (p : prom) (o : outcome) :
  (forall w', runner [] w' = Some (tt, w')) ->
  store w !! id = Some p -> state p <> Pending ->
  settle runner id o w = Some (tt, w).
Proof.
  intros Hr Hl Hs. unfold settle. rewrite Hl.
  assert (E : match o with OFul v => Resolve p v | ORej e => Reject p e end = (p, [])).
  { destruct o; unfold Resolve, Reject; destruct (state p); congruence. }
  rewrite E. rewrite Hr. unfold set_store. rewrite insert_id by done.
  by rewrite world_eta.
Qed.

Lemma run_handlers_nil (fuel : nat) (w : World) : run_handlers fuel [] w = Some (tt, w).
Proof. by destruct fuel. Qed.

(** Settling a pending promise that nobody waits on just stores the outcome. *)
Lemma settle_pending_nil (fuel : nat) (w : World) (id : nat) (p : prom) (o : outcome) :
  store w !! id = Some p -> state p = Pending -> handlers p = [] ->
  settle (run_handlers fuel) id o w =
  Some (tt, set_store (<[id := fst (match o with OFul v => Resolve p v | ORej e => Reject p e end)]> (store w)) w).
Proof.
  intros Hl Hs Hh. unfold settle. rewrite Hl.
  destruct o; unfold Resolve, Reject, doResolve, doReject; rewrite Hs, Hh; simpl;
    apply run_handlers_nil.
Qed.


Ltac lookup_rw := repeat first [rewrite lookup_insert_eq | rewrite lookup_insert_ne by lia].
Ltac mstep := repeat progress (unfold mbindM, ResolveStatic, alloc, Map, New, Then, attach, mret, run_then, settle, resolve_panic, set_store; simpl; rewrite ?run_handlers_nil; lookup_rw; simpl).

(** C9: [Map(Resolve(v), mapper)] resolves to [r] when [mapper(v)]
    returns [(r, nil)], and rejects with exactly the error [e] when it returns
    a non-nil [e]; the rejected mapped promise then ignores every later
    [Resolve]/[Reject]. *)
Theorem map_resolved (fuel : nat) (w : World) (v : value)
    (mapper : value -> ret (value * option error)) :
  match (src <-- ResolveStatic v ; Map (run_handlers fuel) src mapper) w with
  | Some (out, w') =>
      match mapper v with
      | Ret (r, None) =>
          exists p, store w' !! out = Some p /\ GetState p = Fulfilled /\ val p = r
      | Ret (_, Some e) =>
          exists p, store w' !! out = Some p /\ GetState p = Rejected /\ err p = Some e /\
          (forall fuel' v', resolve_at fuel' out v' w' = Some (tt, w')) /\
          (forall fuel' e', reject_at fuel' out e' w' = Some (tt, w'))
      | Raise _ => True
      end
  | None => False
  end.
Proof.
  mstep. destruct (mapper v) as [[res [e|]]|pl]; mstep; try exact I.
  - eexists. split; [reflexivity|]. split; [reflexivity|]. split; [reflexivity|].
    split; intros; (eapply settle_settled; [apply run_handlers_nil | cbn [store]; lookup_rw; reflexivity | simpl; congruence]).
  - eexists. split; [reflexivity|]. split; reflexivity.
Qed.


(** C1 (evaluation at the failing input): with the inline dispatcher, the
    callbacks registered in the order A, B, C run in the order C, B, A: the
    head insertion in [Then] reverses the list and [runHandlers] walks it
    head first. *)
Theorem then_callbacks_run_reversed :
  option_map (fun r => log (snd r)) (fifo_scenario 3 empty_world) = Some ["C"; "B"; "A"].
Proof. vm_compute. reflexivity. Qed.

(** C3: [Then] on a settled promise runs its callback at once, in the
    registering call, and leaves the source's record (and so its handler
    list) untouched: the callback ran exactly once, and later settlement
    attempts on the source change nothing and run nothing. *)
Theorem then_on_settled_runs_now (fuel : nat) (w : World) (src : nat) (p : prom)
    (nF nR : string) (f : value -> ret value) (g : option error -> ret (option error)) :
  fresh w -> store w !! src = Some p -> GetState p <> Pending ->
  match Then (run_handlers fuel) src (Some (OnFUser nF f)) (Some (OnRUser nR g)) w with
  | Some (child, w') =>
      store w' !! src = Some p /\
      log w' = log w ++ [if decide (state p = Fulfilled) then nF else nR] /\
      (exists c, store w' !! child = Some c /\ GetState c <> Pending) /\
      (forall fuel' v, resolve_at fuel' src v w' = Some (tt, w')) /\
      (forall fuel' e, reject_at fuel' src e w' = Some (tt, w'))
  | None => False
  end.
Proof.
  intros Hf Hl Hs. unfold GetState in Hs.
  assert (Hne : src <> next w).
  { intros ->. rewrite (Hf (next w)) in Hl; [discriminate | lia]. }
  mstep. rewrite Hl. destruct (state p) eqn:Es; [congruence| |];
    [destruct (f (val p)) as [r|pl] | destruct (g (err p)) as [e|pl]]; mstep; unfold add_log; simpl; mstep.
  all: rewrite ?Es; simpl.
  all: split; [exact Hl|]; split; [reflexivity|]; split;
    [eexists; split; [reflexivity | unfold GetState; simpl; congruence] |].
  all: split; intros; (eapply settle_settled;
    [apply run_handlers_nil | cbn [store]; lookup_rw; exact Hl | congruence]).
Qed.

Lemma string_append_empty (s : string) : String.append s "" = s.
Proof.
  induction s as [|c s IH]; [reflexivity|].
  change (String c (String.append s "") = String c s). by rewrite IH.
Qed.

(** A settlement of a promise nobody waits on: the new record. *)
Lemma settle_nil_handlers (fuel : nat) (w : World) (id : nat) (p : prom) (o : outcome) :
  store w !! id = Some p -> handlers p = [] ->
  exists p', settle (run_handlers fuel) id o w = Some (tt, set_store (<[id := p']> (store w)) w) /\
    handlers p' = [] /\
    outcome_of p' = match outcome_of p with Some x => Some x | None => Some o end.
Proof.
  intros Hl Hh. unfold settle. rewrite Hl.
  destruct o as [v|e]; unfold Resolve, Reject, doResolve, doReject, outcome_of;
    destruct (state p) eqn:Es; simpl; rewrite ?Hh, ?run_handlers_nil;
    eexists; (split; [reflexivity|]); simpl; rewrite ?Es; auto.
Qed.

Lemma run_script_outcome (fuel : nat) (id : nat) (prog : list instr) :
  forall (w : World) (p : prom), store w !! id = Some p -> handlers p = [] ->
  match run_script (run_handlers fuel) id prog w with
  | Some (res, w1) =>
      match (match res with
             | None => mret tt
             | Some pl => resolve_panic (run_handlers fuel) id pl
             end) w1 with
      | Some (_, w') =>
          exists p', store w' !! id = Some p' /\ handlers p' = [] /\
            outcome_of p' = match outcome_of p with Some x => Some x | None => first_settlement prog end
      | None => False
      end
  | None => False
  end.
Proof.
  induction prog as [|i t IH]; intros w p Hl Hh.
  - simpl. unfold mret. exists p. repeat split; auto. by destruct (outcome_of p).
  - destruct i as [s|v|e|r]; simpl; unfold mbindM.
    + apply IH; done.
    + destruct (settle_nil_handlers fuel w id p (OFul v) Hl Hh) as (p1 & -> & Hh1 & Ho1).
      specialize (IH (set_store (<[id:=p1]> (store w)) w) p1).
      unfold set_store at 1 in IH. simpl in IH. rewrite lookup_insert_eq in IH.
      specialize (IH eq_refl Hh1). rewrite Ho1 in IH.
      destruct (outcome_of p); exact IH.
    + destruct (settle_nil_handlers fuel w id p (ORej e) Hl Hh) as (p1 & -> & Hh1 & Ho1).
      specialize (IH (set_store (<[id:=p1]> (store w)) w) p1).
      unfold set_store at 1 in IH. simpl in IH. rewrite lookup_insert_eq in IH.
      specialize (IH eq_refl Hh1). rewrite Ho1 in IH.
      destruct (outcome_of p); exact IH.
    + unfold mret, resolve_panic.
      destruct (settle_nil_handlers fuel w id p (ORej (Some (panic_error r))) Hl Hh) as (p1 & -> & Hh1 & Ho1).
      exists p1. unfold set_store. simpl. rewrite lookup_insert_eq. repeat split; auto.
Qed.

(** C7 (amended): when the executor given to [New] panics, the promise is
    settled when [New] returns, by the executor's first [resolve], [reject]
    or [panic].  When nothing settled it before the panic, it is [Rejected]
    with the error built by [handlePanic], whose text contains the payload,
    and [Await] returns that error. *)
Theorem new_executor_panic_settles (fuel : nat) (w : World) (pre post : list instr) (r : payload) :
  match NewScript (run_handlers fuel) (pre ++ XPanic r :: post) w with
  | Some (id, w') =>
      exists p, store w' !! id = Some p /\ GetState p <> Pending /\
        outcome_of p = first_settlement (pre ++ XPanic r :: post) /\
        (Forall is_log pre ->
           GetState p = Rejected /\ err p = Some (panic_error r) /\
           contains (Error (panic_error r)) (payload_text r) /\
           (forall zero, snd (Await_enter zero p) = AwaitReturned (zero, Some (panic_error r))))
  | None => False
  end.
Proof.
  set (prog := pre ++ XPanic r :: post).
  assert (Hfs : first_settlement prog <> None /\
     (Forall is_log pre -> first_settlement prog = Some (ORej (Some (panic_error r))))).
  { subst prog. induction pre as [|i t IH]; simpl.
    - split; [discriminate | auto].
    - destruct IH as [IH1 IH2]. destruct i; simpl; (split; [try discriminate; exact IH1|]);
        intros HF; inversion HF; subst; simpl in *; try contradiction; auto. }
  unfold NewScript, New, alloc. simpl. unfold mbindM at 1.
  pose proof (run_script_outcome fuel (next w) prog
    (mkWorld (<[next w := empty_promise]> (store w)) (aggs w) (S (next w)) (log w)) empty_promise
    ltac:(simpl; apply lookup_insert_eq) eq_refl) as HR.
  unfold mbindM at 1.
  destruct (run_script (run_handlers fuel) (next w) prog _) as [[res w1]|]; [|contradiction].
  assert (Hfin : forall w2 (p' : prom), store w2 !! next w = Some p' ->
            outcome_of p' = first_settlement prog ->
            exists p, store w2 !! next w = Some p /\ GetState p <> Pending /\
              outcome_of p = first_settlement prog /\
              (Forall is_log pre ->
                 GetState p = Rejected /\ err p = Some (panic_error r) /\
                 contains (Error (panic_error r)) (payload_text r) /\
                 (forall zero, snd (Await_enter zero p) = AwaitReturned (zero, Some (panic_error r))))).
  { intros w2 p' Hl' Ho'. destruct Hfs as [Hfs1 Hfs2]. exists p'.
    split; [exact Hl'|]. split.
    { unfold GetState. intros Hp. unfold outcome_of in Ho'. rewrite Hp in Ho'. congruence. }
    split; [exact Ho'|]. intros HF. specialize (Hfs2 HF). rewrite Hfs2 in Ho'.
    unfold outcome_of in Ho'. unfold GetState, Await_enter.
    destruct (state p'); try discriminate. injection Ho' as Ho'. rewrite Ho'.
    split; [reflexivity|]. split; [reflexivity|]. split; [|reflexivity].
    destruct r as [e|s]; simpl.
    - exists ""%string, ""%string. simpl. by rewrite string_append_empty.
    - exists "panic: "%string, ""%string. by rewrite string_append_empty. }
  destruct res as [pl|]; simpl in HR.
  - unfold mbindM, mret. destruct (resolve_panic (run_handlers fuel) (next w) pl w1) as [[[] w2]|];
      [|contradiction].
    destruct HR as (p' & Hl' & _ & Ho'). exact (Hfin w2 p' Hl' Ho').
  - unfold mret in HR |- *. destruct HR as (p' & Hl' & _ & Ho'). exact (Hfin w1 p' Hl' Ho').
Qed.

(** C7 (counterexample): an executor that resolves and then panics leaves
    the promise [Fulfilled]; it is not rejected. *)
Lemma new_executor_panic_counterexample :
  match NewScript (run_handlers 1) [XResolve (VInt 1); XPanic (PanicVal "boom")] empty_world with
  | Some (id, w') => exists p, store w' !! id = Some p /\ GetState p = Fulfilled /\ val p = VInt 1
  | None => False
  end.
Proof. vm_compute. eexists. split; [reflexivity|]. split; reflexivity. Qed.

(** ** Witnesses *)


Lemma settle_exactly_once_witness :
  GetState pending_nat = Pending /\
  ((let p1 := fst (Resolve pending_nat 7) in
    GetState p1 = Fulfilled /\ val p1 = 7 /\
    apply_calls p1 [CallReject None; CallResolve 8] = (p1, [])) /\
   (let p1 := fst (Reject pending_nat (Some (mkError "x"))) in
    GetState p1 = Rejected /\ err p1 = Some (mkError "x") /\
    apply_calls p1 [CallReject None; CallResolve 8] = (p1, []))).
Proof.
  split; [reflexivity|].
  apply (settle_exactly_once pending_nat 7 (Some (mkError "x")) [CallReject None; CallResolve 8]).
  reflexivity.
Defined.

Lemma await_cancel_leaves_promise_witness :
  GetState pending_nat = Pending /\
  (let '(p', st) := Await_enter 0 pending_nat in
   st = AwaitBlocked /\
   Await_wake 0 p' (CtxDone (mkError "context canceled")) = (0, Some (mkError "context canceled")) /\
   state p' = state pending_nat /\ val p' = val pending_nat /\ err p' = err pending_nat /\
   handlers p' = handlers pending_nat /\
   (forall v, GetState (fst (Resolve p' v)) = Fulfilled /\ val (fst (Resolve p' v)) = v) /\
   (forall e', GetState (fst (Reject p' e')) = Rejected /\ err (fst (Reject p' e')) = e')).
Proof.
  split; [reflexivity|].
  apply (await_cancel_leaves_promise 0 pending_nat (mkError "context canceled")).
  reflexivity.
Defined.


Lemma then_on_settled_runs_now_witness :
  fresh settled_world /\
  store settled_world !! 0 = Some (mkPromise Fulfilled (VInt 100) None [] None) /\
  GetState (mkPromise Fulfilled (VInt 100) None [] None : prom) <> Pending /\
  match Then (run_handlers 1) 0 (Some (OnFUser "A" (fun v => Ret v)))
         (Some (OnRUser "R" (fun e => Ret e))) settled_world with
  | Some (child, w') =>
      store w' !! 0 = Some (mkPromise Fulfilled (VInt 100) None [] None) /\
      log w' = log settled_world ++
        [if decide (state (mkPromise Fulfilled (VInt 100) None [] None : prom) = Fulfilled)
         then "A" else "R"] /\
      (exists c, store w' !! child = Some c /\ GetState c <> Pending) /\
      (forall fuel' v, resolve_at fuel' 0 v w' = Some (tt, w')) /\
      (forall fuel' e, reject_at fuel' 0 e w' = Some (tt, w'))
  | None => False
  end.
Proof.
  assert (Hf : fresh settled_world).
  { intros k Hk. simpl in Hk. apply lookup_singleton_ne. lia. }
  assert (Hl : store settled_world !! 0 = Some (mkPromise Fulfilled (VInt 100) None [] None)).
  { reflexivity. }
  assert (Hs : GetState (mkPromise Fulfilled (VInt 100) None [] None : prom) <> Pending).
  { discriminate. }
  split; [exact Hf|]. split; [exact Hl|]. split; [exact Hs|].
  exact (then_on_settled_runs_now 1 settled_world 0 _ "A" "R" (fun v => Ret v) (fun e => Ret e) Hf Hl Hs).
Defined.

(** ** Aggregator proofs *)

Lemma int32_small (z : Z) : (0 <= z < 2 ^ 31)%Z -> int32 z = z.
Proof.
  intros Hz. unfold int32. rewrite Z.mod_small; lia.
Qed.

Lemma count_none_le {A} (l : list (option A)) : count_none l <= length l.
Proof. induction l as [|[x|] t IH]; simpl; lia. Qed.

Lemma count_none_insert {A} (l : list (option A)) (i : nat) (v : A) :
  l !! i = Some None -> count_none (<[i := Some v]> l) = count_none l - 1 /\ 1 <= count_none l.
Proof.
  revert i. induction l as [|x t IH]; intros i Hi; [done|].
  destruct i as [|i]; simpl in Hi.
  - injection Hi as ->. simpl. lia.
  - specialize (IH i Hi). destruct x as [y|]; simpl; lia.
Qed.

Lemma count_none_repeat {A} (n : nat) : count_none (repeat (@None A) n) = n.
Proof. induction n; simpl; lia. Qed.

Lemma mapM_count_none {A} (l : list (option A)) :
  (count_none l = 0 -> exists vs, mapM (fun x : option A => x) l = Some vs) /\
  (count_none l <> 0 -> mapM (fun x : option A => x) l = None).
Proof.
  induction l as [|[x|] t [IH1 IH2]]; simpl.
  - split; [eauto | lia].
  - split.
    + intros H. destruct (IH1 H) as [vs Hvs]. rewrite Hvs. simpl. eauto.
    + intros H. rewrite (IH2 H). done.
  - split; [lia | done].
Qed.

Lemma mapM_lookup {A} (l : list (option A)) (vs : list A) :
  mapM (fun x : option A => x) l = Some vs ->
  length vs = length l /\ forall i v, vs !! i = Some v -> l !! i = Some (Some v).
Proof.
  revert vs. induction l as [|x t IH]; intros vs H; simpl in H.
  - injection H as <-. split; [done|]. intros i v Hi. done.
  - destruct x as [y|]; [|done]. simpl in H.
    destruct (mapM _ t) as [vs'|] eqn:E; [|done]. simpl in H. injection H as <-.
    destruct (IH vs' eq_refl) as [IH1 IH2]. split; [simpl; lia|].
    intros [|i] v Hi; simpl in *; [congruence|]. by apply IH2.
Qed.

Lemma results_match (r vs : list value) (l : list (option value)) :
  length r = length l ->
  (forall i v, l !! i = Some (Some v) -> r !! i = Some v) ->
  mapM (fun x : option value => x) l = Some vs -> r = vs.
Proof.
  intros Hlen Hr Hm. destruct (mapM_lookup l vs Hm) as [Hl1 Hl2].
  apply list_eq. intros i. destruct (vs !! i) as [v|] eqn:E.
  - apply Hr, Hl2, E.
  - apply lookup_ge_None in E. apply lookup_ge_None. lia.
Qed.

Lemma settled_record_pending (p : prom) (o : outcome) :
  state p = Pending ->
  outcome_of (settled_record p o) = Some o /\ handlers (settled_record p o) = [].
Proof.
  intros Hs. unfold settled_record, Resolve, Reject, doResolve, doReject, outcome_of.
  destruct o; rewrite Hs; simpl; done.
Qed.

Lemma settle_pending_runner (runner : list closure -> M unit) (w : World) (id : nat) (p : prom) (o : outcome) :
  (forall w', runner [] w' = Some (tt, w')) ->
  store w !! id = Some p -> state p = Pending -> handlers p = [] ->
  settle runner id o w = Some (tt, set_store (<[id := settled_record p o]> (store w)) w).
Proof.
  intros Hr Hl Hs Hh. unfold settle, settled_record. rewrite Hl.
  destruct o; unfold Resolve, Reject, doResolve, doReject; rewrite Hs, Hh; simpl; apply Hr.
Qed.

Lemma run_all_ok (runner : list closure -> M unit) (n a out i t : nat) (w : World) (s : AllAbs)
    (p : prom) (o : outcome) :
  (forall w', runner [] w' = Some (tt, w')) ->
  length (seen s) = n -> (Z.of_nat n < 2 ^ 31)%Z ->
  all_out_ok out w s -> all_agg_ok n a w s -> out <> t ->
  store w !! t = Some p -> outcome_of p = Some o ->
  (fin s = None -> seen s !! i = Some None) ->
  exists w', run_all runner a i t out w = Some (tt, w') /\
    all_out_ok out w' (all_step s (i, o)) /\ all_agg_ok n a w' (all_step s (i, o)) /\
    (forall k, k <> out -> store w' !! k = store w !! k) /\
    length (seen (all_step s (i, o))) = n /\
    (forall j, j <> i -> seen (all_step s (i, o)) !! j = seen s !! j) /\
    (fin (all_step s (i, o)) = None ->
       exists v, o = OFul v /\ seen (all_step s (i, o)) !! i = Some (Some v)).
Proof.
  intros Hr Hn Hbound Hout Hagg Hne Hp Ho Hseen.
  destruct Hout as (po & Hpo & Hpoh & Hpoo).
  destruct Hagg as (g & Hg & Hg1 & Hg2).
  unfold run_all. rewrite Hp. unfold get_agg. rewrite Hg. simpl.
  destruct (fin s) as [x|] eqn:Ef.
  - (* the aggregate is decided: the handler changes nothing *)
    assert (Hfl : flag g = 1%Z) by (apply Hg2; congruence).
    assert (Hst : all_step s (i, o) = s) by (unfold all_step; rewrite Ef; reflexivity).
    rewrite Hst. unfold outcome_of in Ho.
    destruct (state p) eqn:Es; try discriminate.
    + rewrite decide_True by done. exists w. split; [done|].
      split; [exists po; rewrite Ef; done|]. split; [exists g; rewrite Ef; done|].
      split; [done|]. split; [done|]. split; [done|]. intros; congruence.
    + rewrite decide_False by lia. exists w. split; [done|].
      split; [exists po; rewrite Ef; done|]. split; [exists g; rewrite Ef; done|].
      split; [done|]. split; [done|]. split; [done|]. intros; congruence.
  - destruct (Hg1 eq_refl) as (Hf0 & Hpend & Hlen & Hres). specialize (Hseen eq_refl).
    assert (Hpst : state po = Pending).
    { unfold outcome_of in Hpoo. destruct (state po); congruence. }
    unfold outcome_of in Ho. destruct (state p) eqn:Es; try discriminate; injection Ho as <-.
    + (* a fulfilled input *)
      rewrite decide_False by lia.
      destruct (count_none_insert (seen s) i (val p) Hseen) as [Hc1 Hc2].
      pose proof (count_none_le (seen s)) as Hle.
      rewrite Hpend. rewrite int32_small by lia.
      unfold all_step. rewrite Ef, Hseen. cbn [seen fin].
      destruct (decide (Z.of_nat (count_none (seen s)) - 1 = 0)%Z) as [Hz|Hz].
      * rewrite decide_True by done.
        destruct (mapM_count_none (<[i:=Some (val p)]> (seen s))) as [Hm _].
        destruct (Hm ltac:(lia)) as [vs Hvs]. rewrite Hvs.
        assert (Hrv : <[i := val p]> (results g) = vs).
        { apply (results_match _ _ (<[i:=Some (val p)]> (seen s))); [|intros j v Hj|exact Hvs].
          - rewrite !length_insert. lia.
          - destruct (decide (i = j)) as [<-|Hij].
            + rewrite list_lookup_insert_eq in Hj by (apply lookup_lt_Some in Hseen; lia).
              injection Hj as <-. apply list_lookup_insert_eq.
              apply lookup_lt_Some in Hseen. lia.
            + rewrite list_lookup_insert_ne in Hj by done.
              rewrite list_lookup_insert_ne by done. by apply Hres. }
        rewrite (settle_pending_runner runner _ out po) by done.
        eexists. split; [reflexivity|].
        destruct (settled_record_pending po (OFul (VList (<[i:=val p]> (results g)))) Hpst) as [Hso Hsh].
        split.
        { exists (settled_record po (OFul (VList (<[i:=val p]> (results g))))).
          cbn. rewrite lookup_insert_eq. split; [done|]. split; [done|]. rewrite Hso, Hrv. done. }
        split.
        { exists (mkAgg (<[i:=val p]> (results g)) (Z.of_nat (count_none (seen s)) - 1) 1).
          cbn. rewrite lookup_insert_eq. split; [done|]. split; [intros; discriminate|]. done. }
        split; [intros k Hk; cbn; by rewrite lookup_insert_ne|].
        split; [by rewrite length_insert|].
        split; [intros j Hj; by rewrite list_lookup_insert_ne|].
        intros; discriminate.
      * rewrite (proj2 (mapM_count_none _)) by lia.
        eexists. split; [reflexivity|].
        split.
        { exists po. cbn. done. }
        split.
        { exists (mkAgg (<[i:=val p]> (results g)) (Z.of_nat (count_none (seen s)) - 1) (flag g)).
          cbn. rewrite lookup_insert_eq. split; [done|]. split; [|intros []; done].
          intros _. cbn. split; [done|]. split; [rewrite Hc1; lia|].
          split; [rewrite length_insert; lia|].
          intros j v Hj. destruct (decide (i = j)) as [<-|Hij].
          - rewrite list_lookup_insert_eq in Hj by (apply lookup_lt_Some in Hseen; lia).
            injection Hj as <-. apply list_lookup_insert_eq. apply lookup_lt_Some in Hseen. lia.
          - rewrite list_lookup_insert_ne in Hj by done.
            rewrite list_lookup_insert_ne by done. by apply Hres. }
        split; [done|].
        split; [by rewrite length_insert|].
        split; [intros j Hj; by rewrite list_lookup_insert_ne|].
        intros _. exists (val p). split; [done|]. apply list_lookup_insert_eq.
        apply lookup_lt_Some in Hseen. lia.
    + (* a rejected input *)
      rewrite decide_True by done.
      unfold all_step. rewrite Ef, Hseen. cbn [seen fin].
      rewrite (settle_pending_runner runner _ out po) by done.
      eexists. split; [reflexivity|].
      destruct (settled_record_pending po (ORej (err p)) Hpst) as [Hso Hsh].
      split.
      { exists (settled_record po (ORej (err p))). cbn. rewrite lookup_insert_eq. done. }
      split.
      { exists (mkAgg (results g) (pending g) 1). cbn. rewrite lookup_insert_eq.
        split; [done|]. split; [intros; discriminate|]. done. }
      split; [intros k Hk; cbn; by rewrite lookup_insert_ne|].
      split; [done|]. split; [done|]. intros; discriminate.
Qed.


Lemma settle_pending_handlers (runner : list closure -> M unit) (w : World) (id : nat) (p : prom) (o : outcome) :
  store w !! id = Some p -> state p = Pending ->
  settle runner id o w = runner (handlers p) (set_store (<[id := settled_record p o]> (store w)) w).
Proof.
  intros Hl Hs. unfold settle, settled_record. rewrite Hl.
  destruct o; unfold Resolve, Reject, doResolve, doReject; rewrite Hs; reflexivity.
Qed.

Lemma all_step_fin (s : AllAbs) (ev : nat * outcome) :
  fin (all_step s ev) = None -> fin s = None.
Proof.
  unfold all_step. destruct (fin s) eqn:E; [by rewrite E|done].
Qed.

Lemma outcome_of_ful (q : prom) (v : value) :
  outcome_of q = Some (OFul v) -> state q = Fulfilled /\ val q = v.
Proof. unfold outcome_of. destruct (state q); intros H; inversion H; auto. Qed.

Lemma outcome_of_settled (q : prom) (o : outcome) :
  outcome_of q = Some o -> state q <> Pending.
Proof. unfold outcome_of. destruct (state q); congruence. Qed.

Lemma all_out_ok_frame (out : nat) (w w' : World) (s : AllAbs) :
  store w' !! out = store w !! out -> all_out_ok out w s -> all_out_ok out w' s.
Proof. intros E (po & H1 & H2 & H3). exists po. rewrite E. done. Qed.

Lemma all_agg_ok_frame (n a : nat) (w w' : World) (s : AllAbs) :
  aggs w' = aggs w -> all_agg_ok n a w s -> all_agg_ok n a w' s.
Proof. intros E. unfold all_agg_ok. by rewrite E. Qed.

(** An input settled by a step of [All]'s handler keeps the invariant of
    every position. *)
Lemma all_inputs_after (w0 : World) (l : list nat) (a out k k' : nat) (w w' : World)
    (s s' : AllAbs) (i t : nat) (q : prom) (o : outcome) :
  NoDup l -> (forall j tj, l !! j = Some tj -> tj <> out) ->
  l !! i = Some t -> i < k' -> (forall j, j <> i -> (j < k' <-> j < k)) ->
  (forall j tj, l !! j = Some tj -> j <> i -> all_input_ok w0 a out k w s j tj) ->
  store w' !! t = Some q -> outcome_of q = Some o ->
  (forall x, x <> out -> x <> t -> store w' !! x = store w !! x) ->
  (forall j, j <> i -> seen s' !! j = seen s !! j) ->
  (fin s' = None -> fin s = None) ->
  (fin s' = None -> exists v, o = OFul v /\ seen s' !! i = Some (Some v)) ->
  forall j tj, l !! j = Some tj -> all_input_ok w0 a out k' w' s' j tj.
Proof.
  intros Hnd Hout Hi Hik Hk Hold Hq Hqo Hst Hseen Hfin Hfin2 j tj Hj.
  destruct (decide (j = i)) as [->|Hji].
  - rewrite Hi in Hj. injection Hj as <-.
    unfold all_input_ok. rewrite decide_True by done.
    exists q. split; [done|]. split.
    + intros Hp. exfalso. by apply (outcome_of_settled q o).
    + intros Hf. right. destruct (Hfin2 Hf) as (v & -> & Hv).
      destruct (outcome_of_ful q v Hqo) as [Hs Hv']. rewrite Hv'. done.
  - assert (Htj : tj <> t).
    { intros ->. apply Hji. eapply NoDup_lookup; eauto. }
    specialize (Hold j tj Hj Hji). specialize (Hk j Hji).
    unfold all_input_ok in *.
    rewrite (Hst tj (Hout j tj Hj) Htj), (Hseen j Hji).
    destruct (decide (j < k')) as [H1|H1]; destruct (decide (j < k)) as [H2|H2]; try lia.
    + destruct Hold as (p & Hp1 & Hp2 & Hp3). exists p. eauto.
    + destruct Hold as [Hp1 Hp2]. eauto.
Qed.

Lemma all_step_noop (w0 : World) (a out k : nat) (w : World) (s : AllAbs) (i t : nat) (p : prom)
    (o : outcome) :
  i < k -> all_input_ok w0 a out k w s i t -> store w !! t = Some p -> state p <> Pending ->
  all_step s (i, o) = s.
Proof.
  intros Hik Hin Hp Hs. unfold all_input_ok in Hin. rewrite decide_True in Hin by done.
  destruct Hin as (p' & Hp' & _ & Hf). rewrite Hp in Hp'. injection Hp' as <-.
  unfold all_step. destruct (fin s) eqn:E; [done|].
  destruct (Hf eq_refl) as [[Hs' _]|[_ Hseen]]; [done|]. by rewrite Hseen.
Qed.


Lemma all_sched_step (fuel : nat) (w0 : World) (l : list nat) (a out : nat) (w : World)
    (s : AllAbs) (i : nat) (o : outcome) :
  NoDup l -> (forall j tj, l !! j = Some tj -> tj <> out) ->
  (Z.of_nat (length l) < 2 ^ 31)%Z -> 1 <= fuel -> i < length l ->
  all_inv w0 l a out (length l) w s ->
  exists w', settle (run_handlers fuel) (default 0 (l !! i)) o w = Some (tt, w') /\
    all_inv w0 l a out (length l) w' (all_step s (i, o)).
Proof.
  intros Hnd Hout Hb Hfuel Hi (Hoo & Hao & Hlen & Hin).
  destruct (lookup_lt_is_Some_2 l i Hi) as [t Ht]. rewrite Ht. simpl.
  pose proof (Hin i t Ht) as Hit. pose proof Hit as Hit'.
  unfold all_input_ok in Hit. rewrite decide_True in Hit by done.
  destruct Hit as (p & Hp & Hph & Hpf).
  assert (Hto : t <> out) by (eapply Hout; eauto).
  destruct (decide (state p = Pending)) as [Hps|Hps].
  - rewrite (settle_pending_handlers _ w t p o Hp Hps), (Hph Hps).
    destruct fuel as [|f]; [lia|].
    set (w1 := set_store (<[t := settled_record p o]> (store w)) w).
    destruct (settled_record_pending p o Hps) as [Hqo Hqh].
    destruct (run_all_ok (run_handlers f) (length l) a out i t w1 s (settled_record p o) o)
      as (w' & Hrun & Hoo' & Hao' & Hst' & Hlen' & Hseen' & Hfin');
      [apply run_handlers_nil|done|done| | |congruence
       |unfold w1; cbn; by rewrite lookup_insert_eq|done| | ].
    + apply (all_out_ok_frame out w); [|done]. unfold w1; cbn. by rewrite lookup_insert_ne.
    + apply (all_agg_ok_frame _ _ w); [done|done].
    + intros Hf. destruct (Hpf Hf) as [[_ H]|[H _]]; [done|congruence].
    + exists w'. split.
      { cbn. unfold mbindM. cbn. rewrite Hrun. reflexivity. }
      split; [done|]. split; [done|]. split; [done|].
      apply (all_inputs_after w0 l a out (length l) (length l) w w' s _ i t (settled_record p o) o);
        try done.
      * intros j tj Hj _. by apply Hin.
      * rewrite Hst' by done. unfold w1; cbn. by rewrite lookup_insert_eq.
      * intros x Hx1 Hx2. rewrite Hst' by done. unfold w1; cbn. by rewrite lookup_insert_ne.
      * apply all_step_fin.
  - exists w. split.
    + apply (settle_settled _ w t p); [apply run_handlers_nil|done|done].
    + by rewrite (all_step_noop w0 a out (length l) w s i t p o).
Qed.

Lemma all_run_schedule (fuel : nat) (w0 : World) (l : list nat) (a out : nat) :
  NoDup l -> (forall j tj, l !! j = Some tj -> tj <> out) ->
  (Z.of_nat (length l) < 2 ^ 31)%Z -> 1 <= fuel ->
  forall sched w s, Forall (fun ev => fst ev < length l) sched ->
  all_inv w0 l a out (length l) w s ->
  exists w', run_schedule fuel l sched w = Some (tt, w') /\
    all_inv w0 l a out (length l) w' (foldl all_step s sched).
Proof.
  intros Hnd Hout Hb Hfuel sched. induction sched as [|[i o] r IH]; intros w s Hs Hinv.
  - exists w. done.
  - inversion Hs as [|? ? Hi Hr]; subst. simpl in Hi.
    destruct (all_sched_step fuel w0 l a out w s i o) as (w1 & H1 & Hinv1); try done.
    destruct (IH w1 _ Hr Hinv1) as (w2 & H2 & Hinv2).
    exists w2. split; [|done]. simpl. unfold mbindM. rewrite H1. exact H2.
Qed.

Lemma all_register (runner : list closure -> M unit) (w0 : World) (l : list nat) (a out : nat) :
  (forall w', runner [] w' = Some (tt, w')) ->
  NoDup l -> (forall j tj, l !! j = Some tj -> tj <> out) ->
  (Z.of_nat (length l) < 2 ^ 31)%Z -> inputs_ready w0 l ->
  forall ts k w s, drop k l = ts -> all_inv w0 l a out k w s ->
  exists w', attach_all runner (fun i t => HAll a i t out) k ts w = Some (tt, w') /\
    all_inv w0 l a out (length l) w' (foldl all_step s (initial_events_from k (store w0) ts)).
Proof.
  intros Hr Hnd Hout Hb Hready ts. induction ts as [|t r IH]; intros k w s Hdrop Hinv.
  - exists w. split; [done|]. simpl.
    assert (Hk : length l <= k).
    { assert (E : length (drop k l) = 0) by (rewrite Hdrop; done).
      rewrite length_drop in E. lia. }
    destruct Hinv as (Hoo & Hao & Hlen & Hin). split; [done|]. split; [done|]. split; [done|].
    intros i t Hi. specialize (Hin i t Hi). pose proof (lookup_lt_Some _ _ _ Hi).
    unfold all_input_ok in *. rewrite decide_True by lia. rewrite decide_True in Hin by lia. done.
  - assert (Ht : l !! k = Some t).
    { rewrite <- (Nat.add_0_r k), <- lookup_drop, Hdrop. done. }
    assert (Hdrop' : drop (S k) l = r).
    { rewrite <- Nat.add_1_r, <- drop_drop, Hdrop. done. }
    destruct Hinv as (Hoo & Hao & Hlen & Hin).
    pose proof (Hin k t Ht) as Hkt. unfold all_input_ok in Hkt.
    rewrite decide_False in Hkt by lia. destruct Hkt as [Hkt Hks].
    destruct (Hready k t Ht) as (p & Hp & Hph).
    assert (Hto : t <> out) by (eapply Hout; eauto).
    assert (Hpw : store w !! t = Some p) by (by rewrite Hkt).
    simpl. unfold mbindM at 1.
    destruct (outcome_of p) as [o|] eqn:Hpo.
    + (* a settled input: the closure runs at once *)
      assert (Hps : state p <> Pending) by (eapply outcome_of_settled; eauto).
      assert (E : attach runner t (HAll a k t out) w = run_all runner a k t out w).
      { unfold attach. rewrite Hpw. destruct (state p); done. }
      rewrite E.
      destruct (run_all_ok runner (length l) a out k t w s p o)
        as (w1 & Hrun & Hoo1 & Hao1 & Hst1 & Hlen1 & Hseen1 & Hfin1);
        [done|done|done|done|done|congruence|done|done|done|].
      rewrite Hrun.
      destruct (IH (S k) w1 (all_step s (k, o)) Hdrop') as (w' & H1 & H2).
      { split; [done|]. split; [done|]. split; [done|].
        apply (all_inputs_after w0 l a out k (S k) w w1 s _ k t p o); try done.
        - lia.
        - intros j Hj. lia.
        - intros j tj Hj _. by apply Hin.
        - by rewrite Hst1.
        - intros x Hx _. by apply Hst1.
        - apply all_step_fin. }
      exists w'. split; [exact H1|].
      simpl. rewrite Hp. simpl. rewrite Hpo. exact H2.
    + (* a pending input: the closure is head-inserted *)
      assert (Hps : state p = Pending).
      { unfold outcome_of in Hpo. destruct (state p); congruence. }
      unfold attach at 1. rewrite Hpw, Hps.
      set (w1 := set_store (<[t := mkPromise Pending (val p) (err p) [HAll a k t out] (signal p)]>
                   (store w)) w).
      rewrite (Hph Hps). fold w1.
      destruct (IH (S k) w1 s Hdrop') as (w' & H1 & H2).
      { split; [apply (all_out_ok_frame out w); [unfold w1; cbn; by rewrite lookup_insert_ne|done]|].
        split; [apply (all_agg_ok_frame _ _ w); [done|done]|]. split; [done|].
        intros j tj Hj. destruct (decide (j = k)) as [->|Hjk].
        - rewrite Ht in Hj. injection Hj as <-.
          unfold all_input_ok. rewrite decide_True by lia.
          eexists. unfold w1; cbn. rewrite lookup_insert_eq. split; [done|].
          split; [done|]. intros Hf. left. split; [done|]. by apply Hks.
        - assert (Htj : tj <> t).
          { intros ->. apply Hjk. eapply NoDup_lookup; eauto. }
          specialize (Hin j tj Hj). unfold all_input_ok in *.
          unfold w1; cbn. rewrite lookup_insert_ne by done.
          destruct (decide (j < S k)); destruct (decide (j < k)); try lia; done. }
      exists w'. split; [exact H1|].
      simpl. rewrite Hp. simpl. rewrite Hpo. exact H2.
Qed.


Lemma repeat_lookup_lt {A} (x : A) (n i : nat) : i < n -> repeat x n !! i = Some x.
Proof. revert i. induction n as [|n IH]; intros [|i] Hi; simpl; try lia; auto with lia. Qed.

Lemma repeat_lookup_inv {A} (x y : A) (n i : nat) : repeat x n !! i = Some y -> y = x.
Proof. revert i. induction n as [|n IH]; intros [|i] Hi; simpl in Hi; try done; [congruence|eauto]. Qed.

(** C4: [All(l)] followed by any schedule of settlements of its inputs
    leaves the aggregate promise with the outcome of the reference [all_spec]:
    the values in input order once every input is fulfilled, whatever the
    order of the settlements; the first rejection met, every later
    settlement ignored; the empty list at once when [l] is empty. *)
Theorem all_refines_spec (fuel : nat) (w : World) (l : list nat) (sched : list (nat * outcome)) :
  fresh w -> NoDup l -> (Z.of_nat (length l) < 2 ^ 31)%Z -> 1 <= fuel -> inputs_ready w l ->
  Forall (fun ev => fst ev < length l) sched ->
  exists out w', aggregate_then fuel (All (run_handlers fuel) l) l sched w = Some (out, w') /\
    exists p, store w' !! out = Some p /\
      outcome_of p = all_spec (length l) (initial_events w l ++ sched).
Proof.
  intros Hfr Hnd Hb Hfuel Hready Hs.
  assert (Hout : forall j tj, l !! j = Some tj -> tj <> next w).
  { intros j tj Hj ->. destruct (Hready j _ Hj) as (p & Hp & _). rewrite Hfr in Hp by lia. done. }
  unfold aggregate_then, All, New. unfold mbindM at 1. unfold mbindM at 1. unfold alloc at 1.
  simpl.
  destruct (decide (length l = 0)) as [Hn|Hn].
  - (* no input *)
    apply length_zero_iff_nil in Hn. subst l.
    destruct sched as [|ev sched]; [|inversion Hs as [|? ? Hev]; simpl in Hev; lia].
    unfold mbindM at 1. unfold mbindM at 1.
    rewrite (settle_pending_runner _ _ (next w) empty_promise) by
      (try apply run_handlers_nil; try (cbn; by rewrite lookup_insert_eq); done).
    simpl. eexists _, _. split; [reflexivity|].
    eexists. cbn. rewrite lookup_insert_eq. split; [reflexivity|]. reflexivity.
  - unfold mbindM at 1. unfold mbindM at 1. unfold alloc_agg at 1. simpl.
    set (n := length l) in *.
    set (W1 := {| store := <[next w:=empty_promise]> (store w);
                  aggs := <[S (next w) := mkAgg (repeat VUnit n) (int32 (Z.of_nat n)) 0%Z]> (aggs w);
                  next := S (S (next w)); log := log w |}).
    destruct (all_register (run_handlers fuel) w l (S (next w)) (next w) (run_handlers_nil fuel)
                Hnd Hout Hb Hready l 0 W1 (all_init n)) as (w2 & H2 & Hinv2); [done| |].
    { assert (Hfin : fin (all_init n) = None).
      { unfold all_init. cbn. by rewrite decide_False. }
      split.
      { exists empty_promise. unfold W1; cbn [store aggs next]. rewrite lookup_insert_eq. by rewrite Hfin. }
      split.
      { eexists. unfold W1; cbn [store aggs next]. rewrite lookup_insert_eq. split; [reflexivity|].
        split; [|by rewrite Hfin].
        intros _. cbn. split; [done|]. split.
        { rewrite count_none_repeat. apply int32_small. lia. }
        split; [apply repeat_length|].
        intros i v Hi. apply repeat_lookup_inv in Hi. discriminate. }
      split; [apply repeat_length|].
      intros i t Hi. unfold all_input_ok. rewrite decide_False by lia.
      split.
      - unfold W1; cbn [store aggs next]. rewrite lookup_insert_ne; [done|]. intros E. by apply (Hout i t Hi).
      - intros _. cbn. apply repeat_lookup_lt. by apply lookup_lt_Some in Hi. }
    unfold mbindM at 1. rewrite H2. simpl.
    destruct (all_run_schedule fuel w l (S (next w)) (next w) Hnd Hout Hb Hfuel sched w2 _ Hs Hinv2)
      as (w3 & H3 & Hinv3).
    eexists _, w3. split.
    { unfold mbindM. rewrite H3. reflexivity. }
    destruct Hinv3 as ((po & Hpo & _ & Hpoo) & _).
    exists po. split; [done|]. rewrite Hpoo. unfold all_spec, initial_events.
    by rewrite foldl_app.
Qed.



Lemma agg_world_fresh : fresh agg_world.
Proof.
  intros k Hk. simpl in Hk. cbn [store agg_world].
  rewrite !lookup_insert_ne by lia. apply lookup_singleton_ne. lia.
Qed.

Lemma all_refines_spec_witness :
  fresh agg_world /\ NoDup agg_inputs /\ (Z.of_nat (length agg_inputs) < 2 ^ 31)%Z /\ 1 <= 1 /\
  inputs_ready agg_world agg_inputs /\
  Forall (fun ev => fst ev < length agg_inputs) [(2, OFul (VInt 3))] /\
  (exists out w', aggregate_then 1 (All (run_handlers 1) agg_inputs) agg_inputs [(2, OFul (VInt 3))]
                   agg_world = Some (out, w') /\
     exists p, store w' !! out = Some p /\
       outcome_of p = all_spec (length agg_inputs)
                        (initial_events agg_world agg_inputs ++ [(2, OFul (VInt 3))])) /\
  all_spec (length agg_inputs) (initial_events agg_world agg_inputs ++ [(2, OFul (VInt 3))]) =
    Some (OFul (VList [VInt 1; VInt 2; VInt 3])).
Proof.
  assert (Hf : fresh agg_world) by exact agg_world_fresh.
  assert (Hnd : NoDup agg_inputs) by (apply (bool_decide_unpack _); vm_compute; exact I).
  assert (Hb : (Z.of_nat (length agg_inputs) < 2 ^ 31)%Z) by (simpl; lia).
  assert (Hr : inputs_ready agg_world agg_inputs).
  { intros [|[|[|i]]] t Ht; simpl in Ht; try discriminate; injection Ht as <-;
      (eexists; split; [reflexivity|]; intros H; first [reflexivity | discriminate H]). }
  assert (Hs : Forall (fun ev => fst ev < length agg_inputs) [(2, OFul (VInt 3))])
    by (repeat constructor; simpl; lia).
  split; [exact Hf|]. split; [exact Hnd|]. split; [exact Hb|]. split; [lia|].
  split; [exact Hr|]. split; [exact Hs|]. split.
  - exact (all_refines_spec 1 agg_world agg_inputs _ Hf Hnd Hb (le_n 1) Hr Hs).
  - vm_compute. reflexivity.
Defined.


Lemma count_unrejected_le (l : list State) : count_unrejected l <= length l.
Proof. induction l as [|[] t IH]; simpl; lia. Qed.

Lemma count_unrejected_insert (l : list State) (i : nat) (x : State) :
  l !! i = Some Pending ->
  1 <= count_unrejected l /\
  count_unrejected (<[i := x]> l) = if decide (x = Rejected) then count_unrejected l - 1
                                   else count_unrejected l.
Proof.
  revert i. induction l as [|y t IH]; intros i Hi; [done|].
  destruct i as [|i]; simpl in Hi.
  - injection Hi as ->. simpl. destruct x; simpl; lia.
  - destruct (IH i Hi) as [H1 H2]. simpl. rewrite H2.
    destruct y; destruct (decide (x = Rejected)); lia.
Qed.

Lemma forallb_rejected (l : list State) :
  forallb (fun x => bool_decide (x = Rejected)) l = true <-> count_unrejected l = 0.
Proof.
  induction l as [|[] t IH]; simpl; [done| | |].
  - split; [discriminate|lia].
  - split; [discriminate|lia].
  - done.
Qed.

Lemma any_step_states (s : AnyAbs) (i : nat) (o : outcome) :
  astates s !! i = Some Pending ->
  astates (any_step s (i, o)) = <[i := outcome_state o]> (astates s).
Proof. intros Hi. unfold any_step. by rewrite Hi. Qed.

(** One run of [Any]'s closure on an input that has just settled. *)
Lemma run_any_ok (runner : list closure -> M unit) (a out i t : nat) (w : World) (s : AnyAbs)
    (p : prom) (o : outcome) :
  (forall w', runner [] w' = Some (tt, w')) ->
  (Z.of_nat (length (astates s)) < 2 ^ 31)%Z ->
  any_out_ok out w s -> any_agg_ok a w s -> out <> t ->
  store w !! t = Some p -> outcome_of p = Some o -> astates s !! i = Some Pending ->
  exists w', run_any runner a t out w = Some (tt, w') /\
    any_out_ok out w' (any_step s (i, o)) /\ any_agg_ok a w' (any_step s (i, o)) /\
    (forall k, k <> out -> store w' !! k = store w !! k).
Proof.
  intros Hr Hb Hout Hagg Hne Hp Ho Hi.
  destruct Hout as (po & Hpo & Hpoh & Hpoo).
  destruct Hagg as (g & Hg & Hpend & Hf0 & Hf1 & Hf2).
  pose proof (count_unrejected_le (astates s)) as Hle.
  unfold run_any. rewrite Hp. unfold get_agg. rewrite Hg. simpl.
  unfold any_step. rewrite Hi. cbn [astates afin].
  unfold outcome_of in Ho.
  destruct (afin s) as [[v'|e']|] eqn:Ef.
  - (* decided by a fulfilled input: [successFlag] is 1 *)
    specialize (Hf1 v' eq_refl).
    destruct (state p) eqn:Es; try discriminate; injection Ho as <-; cbn [outcome_state].
    + destruct (count_unrejected_insert (astates s) i Fulfilled Hi) as [H1 H2].
      rewrite decide_False by lia. exists w. split; [done|].
      split; [exists po; done|]. split; [|done].
      exists g. cbn [astates afin]. rewrite H2. rewrite decide_False by done.
      repeat split; try done.
    + destruct (count_unrejected_insert (astates s) i Rejected Hi) as [H1 H2].
      rewrite Hpend. rewrite int32_small by lia.
      rewrite decide_True in H2 by done.
      destruct (decide (Z.of_nat (count_unrejected (astates s)) - 1 = 0)%Z).
      * rewrite (decide_False (P := flag g = 0%Z)) by lia.
        eexists. split; [reflexivity|].
        split; [exists po; cbn; done|]. split; [|done].
        eexists. cbn. rewrite lookup_insert_eq. split; [reflexivity|]. cbn.
        split; [rewrite H2; lia|]. split; [done|]. split; [done|]. discriminate.
      * eexists. split; [reflexivity|].
        split; [exists po; cbn; done|]. split; [|done].
        eexists. cbn. rewrite lookup_insert_eq. split; [reflexivity|]. cbn.
        split; [rewrite H2; lia|]. split; [done|]. split; [done|]. discriminate.
  - (* decided by rejection of every input: impossible while [i] is pending *)
    specialize (Hf2 e' eq_refl).
    destruct (count_unrejected_insert (astates s) i Fulfilled Hi). lia.
  - specialize (Hf0 eq_refl).
    assert (Hps : state po = Pending).
    { unfold outcome_of in Hpoo. destruct (state po); congruence. }
    destruct (state p) eqn:Es; try discriminate; injection Ho as <-; cbn [outcome_state].
    + (* the first fulfilled input: [resolve(target.val)] *)
      destruct (count_unrejected_insert (astates s) i Fulfilled Hi) as [H1 H2].
      rewrite decide_True by done.
      rewrite (settle_pending_runner runner _ out po) by done.
      eexists. split; [reflexivity|].
      destruct (settled_record_pending po (OFul (val p)) Hps) as [Hso Hsh].
      split.
      { exists (settled_record po (OFul (val p))). cbn. rewrite lookup_insert_eq. done. }
      split; [|intros k Hk; cbn; by rewrite lookup_insert_ne].
      eexists. cbn. rewrite lookup_insert_eq. split; [reflexivity|]. cbn.
      rewrite H2, decide_False by done. split; [done|].
      split; [discriminate|]. split; [done|]. discriminate.
    + (* a rejected input *)
      destruct (count_unrejected_insert (astates s) i Rejected Hi) as [H1 H2].
      rewrite decide_True in H2 by done.
      rewrite Hpend. rewrite int32_small by lia.
      destruct (decide (Z.of_nat (count_unrejected (astates s)) - 1 = 0)%Z) as [Hz|Hz].
      * (* the last input rejected: the aggregate error *)
        rewrite decide_True by done.
        assert (Hall : forallb (fun x => bool_decide (x = Rejected))
                          (<[i:=Rejected]> (astates s)) = true).
        { apply forallb_rejected. cbn. lia. }
        rewrite Hall.
        rewrite (settle_pending_runner runner _ out po) by done.
        eexists. split; [reflexivity|].
        destruct (settled_record_pending po (ORej (Some all_rejected_error)) Hps) as [Hso Hsh].
        split.
        { eexists. cbn. rewrite lookup_insert_eq. done. }
        split; [|intros k Hk; cbn; by rewrite lookup_insert_ne].
        eexists. cbn. rewrite lookup_insert_eq. split; [reflexivity|]. cbn.
        rewrite H2. split; [lia|]. split; [discriminate|]. split; [discriminate|].
        intros e He. lia.
      * assert (Hall : forallb (fun x => bool_decide (x = Rejected))
                          (<[i:=Rejected]> (astates s)) = false).
        { apply not_true_is_false. rewrite forallb_rejected. cbn. lia. }
        rewrite Hall.
        eexists. split; [reflexivity|].
        split; [exists po; cbn; done|].
        split; [|done].
        eexists. cbn. rewrite lookup_insert_eq. split; [reflexivity|]. cbn.
        rewrite H2. split; [lia|]. split; [done|]. split; [discriminate|]. discriminate.
Qed.


Lemma outcome_state_of (q : prom) (o : outcome) :
  outcome_of q = Some o -> state q = outcome_state o.
Proof. unfold outcome_of. destruct (state q); intros H; inversion H; done. Qed.

Lemma any_inputs_after (w0 : World) (l : list nat) (a out k k' : nat) (w w' : World)
    (s : AnyAbs) (i t : nat) (q : prom) (o : outcome) :
  NoDup l -> (forall j tj, l !! j = Some tj -> tj <> out) ->
  l !! i = Some t -> i < k' -> (forall j, j <> i -> (j < k' <-> j < k)) ->
  (forall j tj, l !! j = Some tj -> j <> i -> any_input_ok w0 a out k w s j tj) ->
  store w' !! t = Some q -> outcome_of q = Some o ->
  (forall x, x <> out -> x <> t -> store w' !! x = store w !! x) ->
  astates s !! i = Some Pending ->
  forall j tj, l !! j = Some tj -> any_input_ok w0 a out k' w' (any_step s (i, o)) j tj.
Proof.
  intros Hnd Hout Hi Hik Hk Hold Hq Hqo Hst Hpi j tj Hj.
  unfold any_input_ok. rewrite (any_step_states s i o Hpi).
  destruct (decide (j = i)) as [->|Hji].
  - rewrite Hi in Hj. injection Hj as <-.
    rewrite decide_True by done.
    exists q. split; [done|]. split.
    + intros Hp. exfalso. by apply (outcome_of_settled q o).
    + rewrite list_lookup_insert_eq by (by apply lookup_lt_Some in Hpi).
      by rewrite (outcome_state_of q o Hqo).
  - assert (Htj : tj <> t).
    { intros ->. apply Hji. eapply NoDup_lookup; eauto. }
    specialize (Hold j tj Hj Hji). specialize (Hk j Hji).
    unfold any_input_ok in Hold.
    rewrite (Hst tj (Hout j tj Hj) Htj), list_lookup_insert_ne by done.
    destruct (decide (j < k')) as [H1|H1]; destruct (decide (j < k)) as [H2|H2]; try lia; done.
Qed.

Lemma any_step_noop (w0 : World) (a out k : nat) (w : World) (s : AnyAbs) (i t : nat) (p : prom)
    (o : outcome) :
  i < k -> any_input_ok w0 a out k w s i t -> store w !! t = Some p -> state p <> Pending ->
  any_step s (i, o) = s.
Proof.
  intros Hik Hin Hp Hs. unfold any_input_ok in Hin. rewrite decide_True in Hin by done.
  destruct Hin as (p' & Hp' & _ & Hst). rewrite Hp in Hp'. injection Hp' as <-.
  unfold any_step. rewrite Hst. by destruct (state p).
Qed.

Lemma any_sched_step (fuel : nat) (w0 : World) (l : list nat) (a out : nat) (w : World)
    (s : AnyAbs) (i : nat) (o : outcome) :
  NoDup l -> (forall j tj, l !! j = Some tj -> tj <> out) ->
  (Z.of_nat (length l) < 2 ^ 31)%Z -> 1 <= fuel -> i < length l ->
  any_inv w0 l a out (length l) w s ->
  exists w', settle (run_handlers fuel) (default 0 (l !! i)) o w = Some (tt, w') /\
    any_inv w0 l a out (length l) w' (any_step s (i, o)).
Proof.
  intros Hnd Hout Hb Hfuel Hi (Hoo & Hao & Hlen & Hin).
  destruct (lookup_lt_is_Some_2 l i Hi) as [t Ht]. rewrite Ht. cbn [default].
  pose proof (Hin i t Ht) as Hit. pose proof Hit as Hit'.
  unfold any_input_ok in Hit. rewrite decide_True in Hit by done.
  destruct Hit as (p & Hp & Hph & Hpst).
  assert (Hto : t <> out) by (eapply Hout; eauto).
  destruct (decide (state p = Pending)) as [Hps|Hps].
  - rewrite (settle_pending_handlers _ w t p o Hp Hps), (Hph Hps).
    destruct fuel as [|f]; [lia|].
    set (w1 := set_store (<[t := settled_record p o]> (store w)) w).
    destruct (settled_record_pending p o Hps) as [Hqo Hqh].
    destruct (run_any_ok (run_handlers f) a out i t w1 s (settled_record p o) o)
      as (w' & Hrun & Hoo' & Hao' & Hst');
      [apply run_handlers_nil|rewrite Hlen; done| | |congruence
       |unfold w1; cbn; by rewrite lookup_insert_eq|done|by rewrite Hpst, Hps| ].
    + destruct Hoo as (po & H1 & H2 & H3). exists po. unfold w1; cbn.
      by rewrite lookup_insert_ne.
    + done.
    + exists w'. split.
      { cbn. unfold mbindM. cbn. rewrite Hrun. reflexivity. }
      assert (Hpi : astates s !! i = Some Pending) by (by rewrite Hpst, Hps).
      split; [done|]. split; [done|].
      split; [rewrite (any_step_states s i o Hpi), length_insert; done|].
      apply (any_inputs_after w0 l a out (length l) (length l) w w' s i t (settled_record p o) o);
        try done.
      * intros j tj Hj _. by apply Hin.
      * rewrite Hst' by done. unfold w1; cbn. by rewrite lookup_insert_eq.
      * intros x Hx1 Hx2. rewrite Hst' by done. unfold w1; cbn. by rewrite lookup_insert_ne.
  - exists w. split.
    + apply (settle_settled _ w t p); [apply run_handlers_nil|done|done].
    + by rewrite (any_step_noop w0 a out (length l) w s i t p o).
Qed.

Lemma any_run_schedule (fuel : nat) (w0 : World) (l : list nat) (a out : nat) :
  NoDup l -> (forall j tj, l !! j = Some tj -> tj <> out) ->
  (Z.of_nat (length l) < 2 ^ 31)%Z -> 1 <= fuel ->
  forall sched w s, Forall (fun ev => fst ev < length l) sched ->
  any_inv w0 l a out (length l) w s ->
  exists w', run_schedule fuel l sched w = Some (tt, w') /\
    any_inv w0 l a out (length l) w' (foldl any_step s sched).
Proof.
  intros Hnd Hout Hb Hfuel sched. induction sched as [|[i o] r IH]; intros w s Hs Hinv.
  - exists w. done.
  - inversion Hs as [|? ? Hi Hr]; subst. simpl in Hi.
    destruct (any_sched_step fuel w0 l a out w s i o) as (w1 & H1 & Hinv1); try done.
    destruct (IH w1 _ Hr Hinv1) as (w2 & H2 & Hinv2).
    exists w2. split; [|done]. simpl. unfold mbindM. rewrite H1. exact H2.
Qed.


Lemma initial_events_from_cons (k : nat) (st : gmap nat prom) (t : nat) (r : list nat) (p : prom) :
  st !! t = Some p ->
  initial_events_from k st (t :: r) =
  match outcome_of p with Some o => [(k, o)] | None => [] end ++ initial_events_from (S k) st r.
Proof. intros H. cbn [initial_events_from]. by rewrite H. Qed.

Lemma any_register (runner : list closure -> M unit) (w0 : World) (l : list nat) (a out : nat) :
  (forall w', runner [] w' = Some (tt, w')) ->
  NoDup l -> (forall j tj, l !! j = Some tj -> tj <> out) ->
  (Z.of_nat (length l) < 2 ^ 31)%Z -> inputs_ready w0 l ->
  forall ts k w s, drop k l = ts -> any_inv w0 l a out k w s ->
  exists w', attach_all runner (fun _ t => HAny a t out) k ts w = Some (tt, w') /\
    any_inv w0 l a out (length l) w' (foldl any_step s (initial_events_from k (store w0) ts)).
Proof.
  intros Hr Hnd Hout Hb Hready ts. induction ts as [|t r IH]; intros k w s Hdrop Hinv.
  - exists w. split; [done|]. simpl.
    assert (Hk : length l <= k).
    { assert (E : length (drop k l) = 0) by (rewrite Hdrop; done).
      rewrite length_drop in E. lia. }
    destruct Hinv as (Hoo & Hao & Hlen & Hin). split; [done|]. split; [done|]. split; [done|].
    intros i t Hi. specialize (Hin i t Hi). pose proof (lookup_lt_Some _ _ _ Hi).
    unfold any_input_ok in *. rewrite decide_True by lia. rewrite decide_True in Hin by lia. done.
  - assert (Ht : l !! k = Some t).
    { rewrite <- (Nat.add_0_r k), <- lookup_drop, Hdrop. done. }
    assert (Hdrop' : drop (S k) l = r).
    { rewrite <- Nat.add_1_r, <- drop_drop, Hdrop. done. }
    destruct Hinv as (Hoo & Hao & Hlen & Hin).
    pose proof (Hin k t Ht) as Hkt. unfold any_input_ok in Hkt.
    rewrite decide_False in Hkt by lia. destruct Hkt as [Hkt Hks].
    destruct (Hready k t Ht) as (p & Hp & Hph).
    assert (Hto : t <> out) by (eapply Hout; eauto).
    assert (Hpw : store w !! t = Some p) by (by rewrite Hkt).
    rewrite (initial_events_from_cons k (store w0) t r p Hp).
    cbn [attach_all]. unfold mbindM at 1.
    destruct (outcome_of p) as [o|] eqn:Hpo.
    + (* a settled input: the closure runs at once *)
      assert (Hps : state p <> Pending) by (eapply outcome_of_settled; eauto).
      assert (E : attach runner t (HAny a t out) w = run_any runner a t out w).
      { unfold attach. rewrite Hpw. destruct (state p); done. }
      rewrite E.
      destruct (run_any_ok runner a out k t w s p o)
        as (w1 & Hrun & Hoo1 & Hao1 & Hst1);
        [done|rewrite Hlen; done|done|done|congruence|done|done|done|].
      rewrite Hrun.
      destruct (IH (S k) w1 (any_step s (k, o)) Hdrop') as (w' & H1 & H2).
      { split; [done|]. split; [done|].
        split; [rewrite (any_step_states s k o Hks), length_insert; done|].
        apply (any_inputs_after w0 l a out k (S k) w w1 s k t p o); try done.
        - lia.
        - intros j Hj. lia.
        - intros j tj Hj _. by apply Hin.
        - by rewrite Hst1.
        - intros x Hx _. by apply Hst1. }
      exists w'. split; [exact H1|]. exact H2.
    + (* a pending input: the closure is head-inserted *)
      assert (Hps : state p = Pending).
      { unfold outcome_of in Hpo. destruct (state p); congruence. }
      unfold attach at 1. rewrite Hpw, Hps.
      set (w1 := set_store (<[t := mkPromise Pending (val p) (err p) [HAny a t out] (signal p)]>
                   (store w)) w).
      rewrite (Hph Hps). fold w1.
      destruct (IH (S k) w1 s Hdrop') as (w' & H1 & H2).
      { split.
        { destruct Hoo as (po & Ho1 & Ho2 & Ho3). exists po. unfold w1; cbn [store set_store].
          by rewrite lookup_insert_ne. }
        split; [done|]. split; [done|].
        intros j tj Hj. destruct (decide (j = k)) as [->|Hjk].
        - rewrite Ht in Hj. injection Hj as <-.
          unfold any_input_ok. rewrite decide_True by lia.
          eexists. unfold w1; cbn [store set_store]. rewrite lookup_insert_eq. split; [done|].
          split; [done|]. done.
        - assert (Htj : tj <> t).
          { intros ->. apply Hjk. eapply NoDup_lookup; eauto. }
          specialize (Hin j tj Hj). unfold any_input_ok in *.
          unfold w1; cbn [store set_store]. rewrite lookup_insert_ne by done.
          destruct (decide (j < S k)); destruct (decide (j < k)); try lia; done. }
      exists w'. split; [exact H1|]. exact H2.
Qed.

(** C5: [Any(l)] followed by any schedule of settlements of its inputs
    leaves the aggregate promise with the outcome of the reference [any_spec]:
    the value of the first input fulfilled; the aggregate "all promises
    rejected" error once every input has rejected, and only then; the
    aggregate "no promises" error at once when [l] is empty. *)
Theorem any_refines_spec (fuel : nat) (w : World) (l : list nat) (sched : list (nat * outcome)) :
  fresh w -> NoDup l -> (Z.of_nat (length l) < 2 ^ 31)%Z -> 1 <= fuel -> inputs_ready w l ->
  Forall (fun ev => fst ev < length l) sched ->
  exists out w', aggregate_then fuel (Any (run_handlers fuel) l) l sched w = Some (out, w') /\
    exists p, store w' !! out = Some p /\
      outcome_of p = any_spec (length l) (initial_events w l ++ sched).
Proof.
  intros Hfr Hnd Hb Hfuel Hready Hs.
  assert (Hout : forall j tj, l !! j = Some tj -> tj <> next w).
  { intros j tj Hj ->. destruct (Hready j _ Hj) as (p & Hp & _). rewrite Hfr in Hp by lia. done. }
  unfold aggregate_then, Any, New. unfold mbindM at 1. unfold mbindM at 1. unfold alloc at 1.
  simpl.
  destruct (decide (length l = 0)) as [Hn|Hn].
  - (* no input *)
    apply length_zero_iff_nil in Hn. subst l.
    destruct sched as [|ev sched]; [|inversion Hs as [|? ? Hev]; simpl in Hev; lia].
    unfold mbindM at 1. unfold mbindM at 1.
    rewrite (settle_pending_runner _ _ (next w) empty_promise) by
      (try apply run_handlers_nil; try (cbn; by rewrite lookup_insert_eq); done).
    simpl. eexists _, _. split; [reflexivity|].
    eexists. cbn. rewrite lookup_insert_eq. split; [reflexivity|]. reflexivity.
  - unfold mbindM at 1. unfold mbindM at 1. unfold alloc_agg at 1. simpl.
    set (n := length l) in *.
    set (W1 := {| store := <[next w:=empty_promise]> (store w);
                  aggs := <[S (next w) := mkAgg [] (int32 (Z.of_nat n)) 0%Z]> (aggs w);
                  next := S (S (next w)); log := log w |}).
    destruct (any_register (run_handlers fuel) w l (S (next w)) (next w) (run_handlers_nil fuel)
                Hnd Hout Hb Hready l 0 W1 (any_init n)) as (w2 & H2 & Hinv2); [done| |].
    { assert (Hfin : afin (any_init n) = None).
      { unfold any_init. cbn. by rewrite decide_False. }
      split.
      { exists empty_promise. unfold W1; cbn [store aggs next]. rewrite lookup_insert_eq.
        by rewrite Hfin. }
      split.
      { eexists. unfold W1; cbn [store aggs next]. rewrite lookup_insert_eq. split; [reflexivity|].
        rewrite Hfin. cbn [pending flag]. split.
        { assert (Hc : count_unrejected (repeat Pending n) = n).
          { clear. induction n; simpl; lia. }
          cbn [astates any_init]. rewrite Hc. apply int32_small. lia. }
        split; [done|]. split; discriminate. }
      split; [apply repeat_length|].
      intros i t Hi. unfold any_input_ok. rewrite decide_False by lia.
      split.
      - unfold W1; cbn [store aggs next]. rewrite lookup_insert_ne; [done|].
        intros E. by apply (Hout i t Hi).
      - cbn. apply repeat_lookup_lt. by apply lookup_lt_Some in Hi. }
    unfold mbindM at 1. rewrite H2. simpl.
    destruct (any_run_schedule fuel w l (S (next w)) (next w) Hnd Hout Hb Hfuel sched w2 _ Hs Hinv2)
      as (w3 & H3 & Hinv3).
    eexists _, w3. split.
    { unfold mbindM. rewrite H3. reflexivity. }
    destruct Hinv3 as ((po & Hpo & _ & Hpoo) & _).
    exists po. split; [done|]. rewrite Hpoo. unfold any_spec, initial_events.
    by rewrite foldl_app.
Qed.


Lemma settled_record_value (zero : value) (p : prom) (o : outcome) :
  outcome_of p = Some o ->
  match state p with
  | Fulfilled => VSettled Fulfilled (val p) None
  | _ => VSettled Rejected zero (err p)
  end = settled_result zero o.
Proof. unfold outcome_of. destruct (state p); intros H; inversion H; done. Qed.

Lemma results_insert (r : list value) (l : list (option value)) (i : nat) (x : value) :
  length r = length l -> i < length l ->
  (forall j v, l !! j = Some (Some v) -> r !! j = Some v) ->
  forall j v, <[i := Some x]> l !! j = Some (Some v) -> <[i := x]> r !! j = Some v.
Proof.
  intros Hlen Hi Hr j v Hj. destruct (decide (i = j)) as [<-|Hij].
  - rewrite list_lookup_insert_eq in Hj by done. injection Hj as <-.
    apply list_lookup_insert_eq. lia.
  - rewrite list_lookup_insert_ne in Hj by done.
    rewrite list_lookup_insert_ne by done. by apply Hr.
Qed.

(** One run of [AllSettled]'s closure on an input that has just settled. *)
Lemma run_allsettled_ok (runner : list closure -> M unit) (n a out i t : nat) (zero : value)
    (w : World) (s : SettledAbs) (p : prom) (o : outcome) :
  (forall w', runner [] w' = Some (tt, w')) ->
  length (records s) = n -> (Z.of_nat n < 2 ^ 31)%Z ->
  settled_out_ok out w s -> settled_agg_ok n a w s -> out <> t ->
  store w !! t = Some p -> outcome_of p = Some o -> records s !! i = Some None ->
  exists w', run_allsettled runner a i t out zero w = Some (tt, w') /\
    settled_out_ok out w' (allsettled_step zero s (i, o)) /\
    settled_agg_ok n a w' (allsettled_step zero s (i, o)) /\
    (forall k, k <> out -> store w' !! k = store w !! k) /\
    length (records (allsettled_step zero s (i, o))) = n /\
    (forall j, j <> i -> records (allsettled_step zero s (i, o)) !! j = records s !! j) /\
    records (allsettled_step zero s (i, o)) !! i = Some (Some (settled_result zero o)).
Proof.
  intros Hr Hn Hbound Hout Hagg Hne Hp Ho Hi.
  destruct Hout as (po & Hpo & Hpoh & Hpoo).
  destruct Hagg as (g & Hg & Hpend & Hlen & Hres & Hfin).
  pose proof (lookup_lt_Some _ _ _ Hi) as Hil.
  destruct (count_none_insert (records s) i (settled_result zero o) Hi) as [Hc1 Hc2].
  pose proof (count_none_le (records s)) as Hle.
  unfold run_allsettled. rewrite Hp. unfold get_agg. rewrite Hg. simpl.
  rewrite (settled_record_value zero p o Ho).
  unfold allsettled_step. rewrite Hi. cbn [records sfin].
  rewrite Hpend. rewrite int32_small by lia.
  assert (Hres' := results_insert (results g) (records s) i (settled_result zero o)
                     ltac:(lia) Hil Hres).
  destruct (decide (Z.of_nat (count_none (records s)) - 1 = 0)%Z) as [Hz|Hz].
  - (* the last input: [resolve(results)] *)
    destruct (mapM_count_none (<[i:=Some (settled_result zero o)]> (records s))) as [Hm _].
    destruct (Hm ltac:(lia)) as [vs Hvs]. rewrite Hvs.
    assert (Hrv : <[i := settled_result zero o]> (results g) = vs).
    { apply (results_match _ _ (<[i:=Some (settled_result zero o)]> (records s)));
        [rewrite !length_insert; lia|exact Hres'|exact Hvs]. }
    assert (Hps : state po = Pending).
    { rewrite (Hfin ltac:(lia)) in Hpoo. unfold outcome_of in Hpoo.
      destruct (state po); congruence. }
    rewrite (settle_pending_runner runner _ out po) by (cbn [store set_aggs put_agg]; done).
    eexists. split; [reflexivity|].
    destruct (settled_record_pending po (OFul (VList (<[i:=settled_result zero o]> (results g)))) Hps)
      as [Hso Hsh].
    split.
    { eexists. cbn. rewrite lookup_insert_eq. split; [done|]. split; [done|]. by rewrite Hso, Hrv. }
    split.
    { eexists. cbn. rewrite lookup_insert_eq. split; [done|]. cbn.
      split; [rewrite Hc1; lia|]. split; [rewrite length_insert; lia|].
      split; [exact Hres'|]. intros H. exfalso. apply H. rewrite Hc1. lia. }
    split; [intros k Hk; cbn; by rewrite lookup_insert_ne|].
    split; [by rewrite length_insert|].
    split; [intros j Hj; by rewrite list_lookup_insert_ne|].
    by rewrite list_lookup_insert_eq.
  - rewrite (proj2 (mapM_count_none _)) by lia.
    eexists. split; [reflexivity|].
    split.
    { exists po. cbn. rewrite Hpoo. split; [done|]. split; [done|]. apply Hfin. lia. }
    split.
    { eexists. cbn. rewrite lookup_insert_eq. split; [done|]. cbn.
      split; [rewrite Hc1; lia|]. split; [rewrite length_insert; lia|].
      split; [exact Hres'|]. done. }
    split; [done|].
    split; [by rewrite length_insert|].
    split; [intros j Hj; by rewrite list_lookup_insert_ne|].
    by rewrite list_lookup_insert_eq.
Qed.


Lemma settled_inputs_after (w0 : World) (l : list nat) (a out : nat) (zero : value) (k k' : nat)
    (w w' : World) (s s' : SettledAbs) (i t : nat) (q : prom) (o : outcome) :
  NoDup l -> (forall j tj, l !! j = Some tj -> tj <> out) ->
  l !! i = Some t -> i < k' -> (forall j, j <> i -> (j < k' <-> j < k)) ->
  (forall j tj, l !! j = Some tj -> j <> i -> settled_input_ok w0 a out zero k w s j tj) ->
  store w' !! t = Some q -> outcome_of q = Some o ->
  (forall x, x <> out -> x <> t -> store w' !! x = store w !! x) ->
  (forall j, j <> i -> records s' !! j = records s !! j) ->
  records s' !! i = Some (Some (settled_result zero o)) ->
  forall j tj, l !! j = Some tj -> settled_input_ok w0 a out zero k' w' s' j tj.
Proof.
  intros Hnd Hout Hi Hik Hk Hold Hq Hqo Hst Hrec Hreci j tj Hj.
  destruct (decide (j = i)) as [->|Hji].
  - rewrite Hi in Hj. injection Hj as <-.
    unfold settled_input_ok. rewrite decide_True by done.
    exists q. split; [done|]. split.
    + intros Hp. exfalso. by apply (outcome_of_settled q o).
    + intros o' Ho'. rewrite Hqo in Ho'. by injection Ho' as <-.
  - assert (Htj : tj <> t).
    { intros ->. apply Hji. eapply NoDup_lookup; eauto. }
    specialize (Hold j tj Hj Hji). specialize (Hk j Hji).
    unfold settled_input_ok in *.
    rewrite (Hst tj (Hout j tj Hj) Htj), (Hrec j Hji).
    destruct (decide (j < k')) as [H1|H1]; destruct (decide (j < k)) as [H2|H2]; try lia; done.
Qed.

Lemma settled_step_noop (w0 : World) (a out : nat) (zero : value) (k : nat) (w : World)
    (s : SettledAbs) (i t : nat) (p : prom) (o : outcome) :
  i < k -> settled_input_ok w0 a out zero k w s i t -> store w !! t = Some p -> state p <> Pending ->
  allsettled_step zero s (i, o) = s.
Proof.
  intros Hik Hin Hp Hs. unfold settled_input_ok in Hin. rewrite decide_True in Hin by done.
  destruct Hin as (p' & Hp' & _ & Hrec). rewrite Hp in Hp'. injection Hp' as <-.
  destruct (outcome_of p) as [o'|] eqn:Ho.
  - unfold allsettled_step. by rewrite (Hrec o' eq_refl).
  - exfalso. unfold outcome_of in Ho. destruct (state p); congruence.
Qed.

Lemma settled_sched_step (fuel : nat) (w0 : World) (l : list nat) (a out : nat) (zero : value)
    (w : World) (s : SettledAbs) (i : nat) (o : outcome) :
  NoDup l -> (forall j tj, l !! j = Some tj -> tj <> out) ->
  (Z.of_nat (length l) < 2 ^ 31)%Z -> 1 <= fuel -> i < length l ->
  settled_inv w0 l a out zero (length l) w s ->
  exists w', settle (run_handlers fuel) (default 0 (l !! i)) o w = Some (tt, w') /\
    settled_inv w0 l a out zero (length l) w' (allsettled_step zero s (i, o)).
Proof.
  intros Hnd Hout Hb Hfuel Hi (Hoo & Hao & Hlen & Hin).
  destruct (lookup_lt_is_Some_2 l i Hi) as [t Ht]. rewrite Ht. cbn [default].
  pose proof (Hin i t Ht) as Hit. pose proof Hit as Hit'.
  unfold settled_input_ok in Hit. rewrite decide_True in Hit by done.
  destruct Hit as (p & Hp & Hph & Hprec).
  assert (Hto : t <> out) by (eapply Hout; eauto).
  destruct (decide (state p = Pending)) as [Hps|Hps].
  - destruct (Hph Hps) as [Hh Hpi].
    rewrite (settle_pending_handlers _ w t p o Hp Hps), Hh.
    destruct fuel as [|f]; [lia|].
    set (w1 := set_store (<[t := settled_record p o]> (store w)) w).
    destruct (settled_record_pending p o Hps) as [Hqo Hqh].
    destruct (run_allsettled_ok (run_handlers f) (length l) a out i t zero w1 s (settled_record p o) o)
      as (w' & Hrun & Hoo' & Hao' & Hst' & Hlen' & Hrec' & Hreci');
      [apply run_handlers_nil|done|done| | |congruence
       |unfold w1; cbn; by rewrite lookup_insert_eq|done|done| ].
    + destruct Hoo as (po & H1 & H2 & H3). exists po. unfold w1; cbn.
      by rewrite lookup_insert_ne.
    + done.
    + exists w'. split.
      { cbn. unfold mbindM. cbn. rewrite Hrun. reflexivity. }
      split; [done|]. split; [done|]. split; [done|].
      apply (settled_inputs_after w0 l a out zero (length l) (length l) w w' s _ i t
               (settled_record p o) o); try done.
      * intros j tj Hj _. by apply Hin.
      * rewrite Hst' by done. unfold w1; cbn. by rewrite lookup_insert_eq.
      * intros x Hx1 Hx2. rewrite Hst' by done. unfold w1; cbn. by rewrite lookup_insert_ne.
  - exists w. split.
    + apply (settle_settled _ w t p); [apply run_handlers_nil|done|done].
    + by rewrite (settled_step_noop w0 a out zero (length l) w s i t p o).
Qed.

Lemma settled_run_schedule (fuel : nat) (w0 : World) (l : list nat) (a out : nat) (zero : value) :
  NoDup l -> (forall j tj, l !! j = Some tj -> tj <> out) ->
  (Z.of_nat (length l) < 2 ^ 31)%Z -> 1 <= fuel ->
  forall sched w s, Forall (fun ev => fst ev < length l) sched ->
  settled_inv w0 l a out zero (length l) w s ->
  exists w', run_schedule fuel l sched w = Some (tt, w') /\
    settled_inv w0 l a out zero (length l) w' (foldl (allsettled_step zero) s sched).
Proof.
  intros Hnd Hout Hb Hfuel sched. induction sched as [|[i o] r IH]; intros w s Hs Hinv.
  - exists w. done.
  - inversion Hs as [|? ? Hi Hr]; subst. simpl in Hi.
    destruct (settled_sched_step fuel w0 l a out zero w s i o) as (w1 & H1 & Hinv1); try done.
    destruct (IH w1 _ Hr Hinv1) as (w2 & H2 & Hinv2).
    exists w2. split; [|done]. simpl. unfold mbindM. rewrite H1. exact H2.
Qed.


Lemma settled_register (runner : list closure -> M unit) (w0 : World) (l : list nat) (a out : nat)
    (zero : value) :
  (forall w', runner [] w' = Some (tt, w')) ->
  NoDup l -> (forall j tj, l !! j = Some tj -> tj <> out) ->
  (Z.of_nat (length l) < 2 ^ 31)%Z -> inputs_ready w0 l ->
  forall ts k w s, drop k l = ts -> settled_inv w0 l a out zero k w s ->
  exists w', attach_all runner (fun i t => HAllSettled a i t out zero) k ts w = Some (tt, w') /\
    settled_inv w0 l a out zero (length l) w'
      (foldl (allsettled_step zero) s (initial_events_from k (store w0) ts)).
Proof.
  intros Hr Hnd Hout Hb Hready ts. induction ts as [|t r IH]; intros k w s Hdrop Hinv.
  - exists w. split; [done|]. simpl.
    assert (Hk : length l <= k).
    { assert (E : length (drop k l) = 0) by (rewrite Hdrop; done).
      rewrite length_drop in E. lia. }
    destruct Hinv as (Hoo & Hao & Hlen & Hin). split; [done|]. split; [done|]. split; [done|].
    intros i t Hi. specialize (Hin i t Hi). pose proof (lookup_lt_Some _ _ _ Hi).
    unfold settled_input_ok in *. rewrite decide_True by lia. rewrite decide_True in Hin by lia. done.
  - assert (Ht : l !! k = Some t).
    { rewrite <- (Nat.add_0_r k), <- lookup_drop, Hdrop. done. }
    assert (Hdrop' : drop (S k) l = r).
    { rewrite <- Nat.add_1_r, <- drop_drop, Hdrop. done. }
    destruct Hinv as (Hoo & Hao & Hlen & Hin).
    pose proof (Hin k t Ht) as Hkt. unfold settled_input_ok in Hkt.
    rewrite decide_False in Hkt by lia. destruct Hkt as [Hkt Hks].
    destruct (Hready k t Ht) as (p & Hp & Hph).
    assert (Hto : t <> out) by (eapply Hout; eauto).
    assert (Hpw : store w !! t = Some p) by (by rewrite Hkt).
    rewrite (initial_events_from_cons k (store w0) t r p Hp).
    cbn [attach_all]. unfold mbindM at 1.
    destruct (outcome_of p) as [o|] eqn:Hpo.
    + (* a settled input: the closure runs at once *)
      assert (Hps : state p <> Pending) by (eapply outcome_of_settled; eauto).
      assert (E : attach runner t (HAllSettled a k t out zero) w = run_allsettled runner a k t out zero w).
      { unfold attach. rewrite Hpw. destruct (state p); done. }
      rewrite E.
      destruct (run_allsettled_ok runner (length l) a out k t zero w s p o)
        as (w1 & Hrun & Hoo1 & Hao1 & Hst1 & Hlen1 & Hrec1 & Hreci1);
        [done|done|done|done|done|congruence|done|done|done|].
      rewrite Hrun.
      destruct (IH (S k) w1 (allsettled_step zero s (k, o)) Hdrop') as (w' & H1 & H2).
      { split; [done|]. split; [done|]. split; [done|].
        apply (settled_inputs_after w0 l a out zero k (S k) w w1 s _ k t p o); try done.
        - lia.
        - intros j Hj. lia.
        - intros j tj Hj _. by apply Hin.
        - by rewrite Hst1.
        - intros x Hx _. by apply Hst1. }
      exists w'. split; [exact H1|]. exact H2.
    + (* a pending input: the closure is head-inserted *)
      assert (Hps : state p = Pending).
      { unfold outcome_of in Hpo. destruct (state p); congruence. }
      unfold attach at 1. rewrite Hpw, Hps.
      set (w1 := set_store (<[t := mkPromise Pending (val p) (err p) [HAllSettled a k t out zero]
                                     (signal p)]> (store w)) w).
      rewrite (Hph Hps). fold w1.
      destruct (IH (S k) w1 s Hdrop') as (w' & H1 & H2).
      { split.
        { destruct Hoo as (po & Ho1 & Ho2 & Ho3). exists po. unfold w1; cbn [store set_store].
          by rewrite lookup_insert_ne. }
        split; [done|]. split; [done|].
        intros j tj Hj. destruct (decide (j = k)) as [->|Hjk].
        - rewrite Ht in Hj. injection Hj as <-.
          unfold settled_input_ok. rewrite decide_True by lia.
          eexists. unfold w1; cbn [store set_store]. rewrite lookup_insert_eq. split; [done|].
          split; [done|]. intros o' Ho'. discriminate.
        - assert (Htj : tj <> t).
          { intros ->. apply Hjk. eapply NoDup_lookup; eauto. }
          specialize (Hin j tj Hj). unfold settled_input_ok in *.
          unfold w1; cbn [store set_store]. rewrite lookup_insert_ne by done.
          destruct (decide (j < S k)); destruct (decide (j < k)); try lia; done. }
      exists w'. split; [exact H1|]. exact H2.
Qed.

Lemma allsettled_steps_no_reject (zero : value) (evs : list (nat * outcome)) :
  forall s, (forall e, sfin s <> Some (ORej e)) ->
  forall e, sfin (foldl (allsettled_step zero) s evs) <> Some (ORej e).
Proof.
  induction evs as [|[i o] r IH]; intros s Hs; [done|].
  simpl. apply IH. intros e. unfold allsettled_step.
  destruct (records s !! i) as [[x|]|]; try apply Hs.
  cbn [sfin]. destruct (mapM _ _); discriminate.
Qed.

Lemma allsettled_spec_no_reject (zero : value) (n : nat) (evs : list (nat * outcome)) (e : option error) :
  allsettled_spec zero n evs <> Some (ORej e).
Proof.
  apply allsettled_steps_no_reject. intros e'. unfold allsettled_init. cbn [sfin].
  destruct (decide (n = 0)); discriminate.
Qed.

(** C6: [AllSettled(l)] followed by any schedule of settlements of its
    inputs leaves the aggregate promise with the outcome of the reference
    [allsettled_spec]: once every input has settled, the list of their
    [SettledResult] records in input order, [Fulfilled] with the value or
    [Rejected] with the reason; the aggregate promise is never rejected. *)
Theorem allsettled_refines_spec (fuel : nat) (zero : value) (w : World) (l : list nat)
    (sched : list (nat * outcome)) :
  fresh w -> NoDup l -> (Z.of_nat (length l) < 2 ^ 31)%Z -> 1 <= fuel -> inputs_ready w l ->
  Forall (fun ev => fst ev < length l) sched ->
  exists out w', aggregate_then fuel (AllSettled (run_handlers fuel) zero l) l sched w = Some (out, w') /\
    exists p, store w' !! out = Some p /\
      outcome_of p = allsettled_spec zero (length l) (initial_events w l ++ sched) /\
      forall e, outcome_of p <> Some (ORej e).
Proof.
  intros Hfr Hnd Hb Hfuel Hready Hs.
  assert (Hout : forall j tj, l !! j = Some tj -> tj <> next w).
  { intros j tj Hj ->. destruct (Hready j _ Hj) as (p & Hp & _). rewrite Hfr in Hp by lia. done. }
  assert (Hnr : forall p, outcome_of p = allsettled_spec zero (length l) (initial_events w l ++ sched) ->
             forall e, outcome_of p <> Some (ORej e)).
  { intros p Hp e. rewrite Hp. apply allsettled_spec_no_reject. }
  unfold aggregate_then, AllSettled, New. unfold mbindM at 1. unfold mbindM at 1. unfold alloc at 1.
  simpl.
  destruct (decide (length l = 0)) as [Hn|Hn].
  - (* no input *)
    apply length_zero_iff_nil in Hn. subst l.
    destruct sched as [|ev sched]; [|inversion Hs as [|? ? Hev]; simpl in Hev; lia].
    unfold mbindM at 1. unfold mbindM at 1.
    rewrite (settle_pending_runner _ _ (next w) empty_promise) by
      (try apply run_handlers_nil; try (cbn; by rewrite lookup_insert_eq); done).
    simpl. eexists _, _. split; [reflexivity|].
    eexists. cbn. rewrite lookup_insert_eq. split; [reflexivity|].
    split; [reflexivity|]. intros e. discriminate.
  - unfold mbindM at 1. unfold mbindM at 1. unfold alloc_agg at 1. simpl.
    set (n := length l) in *.
    set (W1 := {| store := <[next w:=empty_promise]> (store w);
                  aggs := <[S (next w) := mkAgg (repeat (VSettled Pending VUnit None) n)
                                           (int32 (Z.of_nat n)) 0%Z]> (aggs w);
                  next := S (S (next w)); log := log w |}).
    destruct (settled_register (run_handlers fuel) w l (S (next w)) (next w) zero
                (run_handlers_nil fuel) Hnd Hout Hb Hready l 0 W1 (allsettled_init n))
      as (w2 & H2 & Hinv2); [done| |].
    { assert (Hfin : sfin (allsettled_init n) = None).
      { unfold allsettled_init. cbn. by rewrite decide_False. }
      split.
      { exists empty_promise. unfold W1; cbn [store aggs next]. rewrite lookup_insert_eq.
        by rewrite Hfin. }
      split.
      { eexists. unfold W1; cbn [store aggs next]. rewrite lookup_insert_eq. split; [reflexivity|].
        cbn [pending results records allsettled_init]. split.
        { rewrite count_none_repeat. apply int32_small. lia. }
        split; [apply repeat_length|].
        split; [intros i v Hi; apply repeat_lookup_inv in Hi; discriminate|].
        intros _. exact Hfin. }
      split; [apply repeat_length|].
      intros i t Hi. unfold settled_input_ok. rewrite decide_False by lia.
      split.
      - unfold W1; cbn [store aggs next]. rewrite lookup_insert_ne; [done|].
        intros E. by apply (Hout i t Hi).
      - cbn. apply repeat_lookup_lt. by apply lookup_lt_Some in Hi. }
    unfold mbindM at 1. rewrite H2. simpl.
    destruct (settled_run_schedule fuel w l (S (next w)) (next w) zero Hnd Hout Hb Hfuel sched w2 _
                Hs Hinv2) as (w3 & H3 & Hinv3).
    eexists _, w3. split.
    { unfold mbindM. rewrite H3. reflexivity. }
    destruct Hinv3 as ((po & Hpo & _ & Hpoo) & _).
    assert (Hpo' : outcome_of po = allsettled_spec zero n (initial_events w l ++ sched)).
    { rewrite Hpoo. unfold allsettled_spec, initial_events. by rewrite foldl_app. }
    exists po. split; [done|]. split; [exact Hpo'|]. by apply Hnr.
Qed.


Lemma any_refines_spec_witness :
  fresh any_world /\ NoDup agg_inputs /\ (Z.of_nat (length agg_inputs) < 2 ^ 31)%Z /\ 1 <= 1 /\
  inputs_ready any_world agg_inputs /\
  Forall (fun ev => fst ev < length agg_inputs) [(2, OFul (VInt 7)); (1, OFul (VInt 8))] /\
  (exists out w', aggregate_then 1 (Any (run_handlers 1) agg_inputs) agg_inputs
                   [(2, OFul (VInt 7)); (1, OFul (VInt 8))] any_world = Some (out, w') /\
     exists p, store w' !! out = Some p /\
       outcome_of p = any_spec (length agg_inputs)
                        (initial_events any_world agg_inputs ++
                         [(2, OFul (VInt 7)); (1, OFul (VInt 8))])) /\
  any_spec (length agg_inputs)
    (initial_events any_world agg_inputs ++ [(2, OFul (VInt 7)); (1, OFul (VInt 8))]) =
    Some (OFul (VInt 7)).
Proof.
  assert (Hf : fresh any_world).
  { intros k Hk. simpl in Hk. cbn [store any_world].
    rewrite !lookup_insert_ne by lia. apply lookup_singleton_ne. lia. }
  assert (Hnd : NoDup agg_inputs) by (apply (bool_decide_unpack _); vm_compute; exact I).
  assert (Hb : (Z.of_nat (length agg_inputs) < 2 ^ 31)%Z) by (simpl; lia).
  assert (Hr : inputs_ready any_world agg_inputs).
  { intros [|[|[|i]]] t Ht; simpl in Ht; try discriminate; injection Ht as <-;
      (eexists; split; [reflexivity|]; intros H; first [reflexivity | discriminate H]). }
  assert (Hs : Forall (fun ev => fst ev < length agg_inputs) [(2, OFul (VInt 7)); (1, OFul (VInt 8))])
    by (repeat constructor; simpl; lia).
  split; [exact Hf|]. split; [exact Hnd|]. split; [exact Hb|]. split; [lia|].
  split; [exact Hr|]. split; [exact Hs|]. split.
  - exact (any_refines_spec 1 any_world agg_inputs _ Hf Hnd Hb (le_n 1) Hr Hs).
  - vm_compute. reflexivity.
Defined.

Lemma allsettled_refines_spec_witness :
  fresh allsettled_world /\ NoDup agg_inputs /\ (Z.of_nat (length agg_inputs) < 2 ^ 31)%Z /\
  1 <= 1 /\ inputs_ready allsettled_world agg_inputs /\
  Forall (fun ev => fst ev < length agg_inputs) [(2, OFul (VStr "later"))] /\
  (exists out w', aggregate_then 1 (AllSettled (run_handlers 1) VUnit agg_inputs) agg_inputs
                   [(2, OFul (VStr "later"))] allsettled_world = Some (out, w') /\
     exists p, store w' !! out = Some p /\
       outcome_of p = allsettled_spec VUnit (length agg_inputs)
                        (initial_events allsettled_world agg_inputs ++ [(2, OFul (VStr "later"))]) /\
       forall e, outcome_of p <> Some (ORej e)) /\
  allsettled_spec VUnit (length agg_inputs)
    (initial_events allsettled_world agg_inputs ++ [(2, OFul (VStr "later"))]) =
    Some (OFul (VList [VSettled Fulfilled (VStr "ok") None;
                       VSettled Rejected VUnit (Some (mkError "bad"));
                       VSettled Fulfilled (VStr "later") None])).
Proof.
  assert (Hf : fresh allsettled_world).
  { intros k Hk. simpl in Hk. cbn [store allsettled_world].
    rewrite !lookup_insert_ne by lia. apply lookup_singleton_ne. lia. }
  assert (Hnd : NoDup agg_inputs) by (apply (bool_decide_unpack _); vm_compute; exact I).
  assert (Hb : (Z.of_nat (length agg_inputs) < 2 ^ 31)%Z) by (simpl; lia).
  assert (Hr : inputs_ready allsettled_world agg_inputs).
  { intros [|[|[|i]]] t Ht; simpl in Ht; try discriminate; injection Ht as <-;
      (eexists; split; [reflexivity|]; intros H; first [reflexivity | discriminate H]). }
  assert (Hs : Forall (fun ev => fst ev < length agg_inputs) [(2, OFul (VStr "later"))])
    by (repeat constructor; simpl; lia).
  split; [exact Hf|]. split; [exact Hnd|]. split; [exact Hb|]. split; [lia|].
  split; [exact Hr|]. split; [exact Hs|]. split.
  - exact (allsettled_refines_spec 1 VUnit allsettled_world agg_inputs _ Hf Hnd Hb (le_n 1) Hr Hs).
  - vm_compute. reflexivity.
Defined.

(** ** Further properties of the combinators *)

Lemma fresh_ne (w : World) (src : nat) (p : prom) :
  fresh w -> store w !! src = Some p -> src <> next w.
Proof. intros Hf Hl ->. rewrite (Hf (next w)) in Hl; [discriminate | lia]. Qed.

(** X4: [Then] with a user [onFulfilled] on a fulfilled promise settles the
    child at once: fulfilled with the callback's result, or rejected with the
    [handlePanic] error when the callback panics.  Only that callback runs
    ([onRejected] is never called) and the source is unchanged. *)
Theorem then_fulfilled_user (fuel : nat) (w : World) (src : nat) (p : prom)
    (n : string) (f : value -> ret value) (onR : option on_rejected) :
  fresh w -> store w !! src = Some p -> state p = Fulfilled ->
  match Then (run_handlers fuel) src (Some (OnFUser n f)) onR w with
  | Some (c, w') =>
      exists pc, store w' !! c = Some pc /\ handlers pc = [] /\
        outcome_of pc = Some (match f (val p) with
                              | Ret r => OFul r
                              | Raise r => ORej (Some (panic_error r))
                              end) /\
        log w' = log w ++ [n] /\ store w' !! src = Some p
  | None => False
  end.
Proof.
  intros Hf Hl Hs. pose proof (fresh_ne w src p Hf Hl) as Hne.
  mstep. rewrite Hl, Hs. destruct (f (val p)) as [r|pl]; mstep; unfold add_log; simpl; mstep;
    (eexists; split; [reflexivity|]); simpl; repeat split; auto.
Qed.

(** X5: [Then] on a rejected promise (with no [onRejected] or a user one)
    always gives a rejected child: with the source's error, the error
    [onRejected] returns, or the [handlePanic] error when it panics.
    [onFulfilled] never runs. *)
Theorem then_rejected_source (fuel : nat) (w : World) (src : nat) (p : prom)
    (onF : option on_fulfilled) (onR : option on_rejected) :
  fresh w -> store w !! src = Some p -> state p = Rejected ->
  (forall x, onR <> Some (OnRMap x)) ->
  match Then (run_handlers fuel) src onF onR w with
  | Some (c, w') =>
      exists pc, store w' !! c = Some pc /\ handlers pc = [] /\
        outcome_of pc = Some (ORej (match onR with
                                    | Some (OnRUser _ g) =>
                                        match g (err p) with
                                        | Ret e => e
                                        | Raise r => Some (panic_error r)
                                        end
                                    | _ => err p
                                    end)) /\
        log w' = log w ++ (match onR with Some (OnRUser m _) => [m] | _ => [] end) /\
        store w' !! src = Some p
  | None => False
  end.
Proof.
  intros Hf Hl Hs Hm. pose proof (fresh_ne w src p Hf Hl) as Hne.
  destruct onR as [[m g|x]|]; [| exfalso; exact (Hm x eq_refl) |].
  - mstep. rewrite Hl, Hs. destruct (g (err p)) as [e|pl]; mstep; unfold add_log; simpl; mstep;
      (eexists; split; [reflexivity|]); simpl; repeat split; auto.
  - mstep. rewrite Hl, Hs. mstep. rewrite app_nil_r.
    eexists; split; [reflexivity|]; simpl; repeat split; auto.
Qed.

(** X8: [Catch] on a fulfilled promise gives a child fulfilled with the same
    value, and calls no callback. *)
Theorem catch_passes_fulfilment (fuel : nat) (w : World) (src : nat) (p : prom)
    (onR : option on_rejected) :
  fresh w -> store w !! src = Some p -> state p = Fulfilled ->
  match Catch (run_handlers fuel) src onR w with
  | Some (c, w') =>
      exists pc, store w' !! c = Some pc /\ handlers pc = [] /\
        outcome_of pc = Some (OFul (val p)) /\ log w' = log w
  | None => False
  end.
Proof.
  intros Hf Hl Hs. pose proof (fresh_ne w src p Hf Hl) as Hne. unfold Catch.
  mstep. rewrite Hl, Hs. mstep.
  eexists; split; [reflexivity|]; simpl; repeat split; auto.
Qed.

(** X9: [Tap] on a settled promise calls [onTap] once (with [(val, nil)] or
    [(zero, err)]) and, when [onTap] returns, the child has the source's
    outcome; when [onTap] panics, it is rejected with the [handlePanic]
    error. *)
Theorem tap_preserves_outcome (fuel : nat) (w : World) (zero : value) (src : nat) (p : prom)
    (name : string) (onTap : value -> option error -> ret unit) :
  fresh w -> store w !! src = Some p -> state p <> Pending ->
  match Tap (run_handlers fuel) zero src name onTap w with
  | Some (c, w') =>
      exists pc, store w' !! c = Some pc /\ handlers pc = [] /\
        outcome_of pc = match (match state p with
                               | Fulfilled => onTap (val p) None
                               | _ => onTap zero (err p)
                               end) with
                        | Ret _ => outcome_of p
                        | Raise r => Some (ORej (Some (panic_error r)))
                        end /\
        log w' = log w ++ [name]
  | None => False
  end.
Proof.
  intros Hf Hl Hs. pose proof (fresh_ne w src p Hf Hl) as Hne. unfold Tap.
  mstep. rewrite Hl. unfold outcome_of at 2.
  destruct (state p) eqn:Es; [congruence| |].
  - destruct (onTap (val p) None) as [[]|pl]; mstep; unfold add_log; simpl; mstep;
      (eexists; split; [reflexivity|]); simpl; repeat split; auto.
  - destruct (onTap zero (err p)) as [[]|pl]; mstep; unfold add_log; simpl; mstep;
      (eexists; split; [reflexivity|]); simpl; repeat split; auto.
Qed.


(** X11: [Map] of a rejected promise is rejected with the same error,
    whatever the mapper, and runs no logged callback. *)
Theorem map_rejected_source (fuel : nat) (w : World) (src : nat) (p : prom)
    (mapper : value -> ret (value * option error)) :
  fresh w -> store w !! src = Some p -> state p = Rejected ->
  match Map (run_handlers fuel) src mapper w with
  | Some (out, w') =>
      exists po, store w' !! out = Some po /\ handlers po = [] /\
        outcome_of po = Some (ORej (err p)) /\ log w' = log w
  | None => False
  end.
Proof.
  intros Hf Hl Hs. pose proof (fresh_ne w src p Hf Hl) as Hne.
  assert (Hne1 : src <> S (next w)).
  { intros ->. rewrite (Hf (S (next w))) in Hl; [discriminate | lia]. }
  mstep. rewrite Hl, Hs. mstep.
  eexists; split; [reflexivity|]; simpl; repeat split; auto.
Qed.


(** X6: [Then(g)] chained on [Then(f)] of a pending promise: resolving the
    source with [v] settles the second child with [g(f(v))]; a panic of [f]
    or [g] rejects it with the [handlePanic] error, and [g] does not run
    after a panic of [f]. *)
Theorem then_chain_on_resolve (fuel : nat) (w : World) (src : nat) (p : prom)
    (nf ng : string) (f g : value -> ret value) (v : value) :
  fresh w -> store w !! src = Some p -> state p = Pending -> handlers p = [] -> 2 <= fuel ->
  match (c1 <-- Then (run_handlers fuel) src (Some (OnFUser nf f)) None ;
         c2 <-- Then (run_handlers fuel) c1 (Some (OnFUser ng g)) None ;
         settle (run_handlers fuel) src (OFul v) ;;; mret c2) w with
  | Some (c2, w') =>
      exists pc, store w' !! c2 = Some pc /\
        outcome_of pc = Some (match f v with
                              | Ret v1 =>
                                  match g v1 with
                                  | Ret v2 => OFul v2
                                  | Raise r => ORej (Some (panic_error r))
                                  end
                              | Raise r => ORej (Some (panic_error r))
                              end) /\
        log w' = log w ++ nf :: (match f v with Ret _ => [ng] | Raise _ => [] end)
  | None => False
  end.
Proof.
  intros Hf Hl Hs Hh Hfu. pose proof (fresh_ne w src p Hf Hl) as Hne.
  destruct fuel as [|[|fuel]]; [lia|lia|].
  assert (Hne1 : src <> S (next w)).
  { intros ->. rewrite (Hf (S (next w))) in Hl; [discriminate | lia]. }
  mstep. rewrite Hl, Hs. mstep. rewrite Hh. simpl.
  destruct (f v) as [v1|r1]; mstep; unfold add_log; simpl; mstep.
  - destruct (g v1) as [v2|r2]; mstep; unfold add_log; simpl; mstep;
      (eexists; split; [reflexivity|]); simpl; rewrite <- app_assoc; auto.
  - eexists; split; [reflexivity|]; simpl; auto.
Qed.

(** X7: on a pending promise with no handler, registering a user [Then] and
    then settling the promise succeeds and ends in the same world, with the
    same child, as settling first and registering afterwards. *)
Theorem then_settle_commute (fuel : nat) (w : World) (src : nat) (p : prom)
    (onF : option on_fulfilled) (onR : option on_rejected) (o : outcome) :
  fresh w -> store w !! src = Some p -> state p = Pending -> handlers p = [] -> 1 <= fuel ->
  (forall m x, onF <> Some (OnFMap m x)) -> (forall x, onR <> Some (OnRMap x)) ->
  is_Some ((c <-- Then (run_handlers fuel) src onF onR ; settle (run_handlers fuel) src o ;;; mret c) w) /\
  (c <-- Then (run_handlers fuel) src onF onR ; settle (run_handlers fuel) src o ;;; mret c) w =
  (settle (run_handlers fuel) src o ;;; Then (run_handlers fuel) src onF onR) w.
Proof.
  intros Hf Hl Hs Hh Hfu HF HR. pose proof (fresh_ne w src p Hf Hl) as Hne.
  destruct fuel as [|fuel]; [lia|].
  destruct onF as [[nf f|m x]|]; [| exfalso; exact (HF m x eq_refl) |];
  (destruct onR as [[nr g|x]|]; [| exfalso; exact (HR x eq_refl) |]);
  destruct o as [v|e]; mstep; rewrite Hl, Hs; mstep;
    unfold Resolve, doResolve, Reject, doReject; rewrite ?Hs, ?Hh; mstep;
    repeat match goal with |- context [match ?x with Ret _ => _ | Raise _ => _ end] => destruct x end;
    mstep; unfold add_log; simpl; mstep.
  all: split; [eexists; reflexivity|].
  all: do 3 f_equal; rewrite insert_insert_eq, (insert_insert_ne _ src (next w)) by lia; reflexivity.
Qed.

(** X3: [Then] on a pending promise runs no callback: the child is a fresh
    pending promise, the [handle] closure is pushed at the head of the
    source's handler list, and no other promise, the log and the aggregator
    cells are unchanged. *)
Theorem then_pending_defers (fuel : nat) (w : World) (src : nat) (p : prom)
    (onF : option on_fulfilled) (onR : option on_rejected) :
  fresh w -> store w !! src = Some p -> state p = Pending ->
  match Then (run_handlers fuel) src onF onR w with
  | Some (c, w') =>
      store w' !! c = Some empty_promise /\
      store w' !! src = Some (mkPromise Pending (val p) (err p)
                                (HThen src c onF onR :: handlers p) (signal p)) /\
      (forall k, k <> c -> k <> src -> store w' !! k = store w !! k) /\
      log w' = log w /\ aggs w' = aggs w
  | None => False
  end.
Proof.
  intros Hf Hl Hs. pose proof (fresh_ne w src p Hf Hl) as Hne.
  mstep. rewrite Hl, Hs. mstep.
  split; [reflexivity|]. split; [reflexivity|]. split; [|auto].
  intros k Hk1 Hk2. rewrite !lookup_insert_ne by congruence. reflexivity.
Qed.

(** X13: after [New(executor)] returns (inline dispatcher), the promise's
    outcome is fixed by the executor's first [resolve], [reject] or [panic];
    when the executor does none of them it stays pending. *)
Theorem new_first_settlement (fuel : nat) (w : World) (prog : list instr) :
  match NewScript (run_handlers fuel) prog w with
  | Some (id, w') =>
      exists p, store w' !! id = Some p /\ handlers p = [] /\
        outcome_of p = first_settlement prog
  | None => False
  end.
Proof.
  unfold NewScript, New, alloc. simpl. unfold mbindM at 1.
  pose proof (run_script_outcome fuel (next w) prog
    (mkWorld (<[next w := empty_promise]> (store w)) (aggs w) (S (next w)) (log w)) empty_promise
    ltac:(simpl; apply lookup_insert_eq) eq_refl) as HR.
  unfold mbindM at 1.
  destruct (run_script (run_handlers fuel) (next w) prog _) as [[res w1]|]; [|contradiction].
  destruct res as [pl|]; simpl in HR |- *.
  - unfold mbindM. destruct (resolve_panic _ _ _ w1) as [[[] w2]|]; [|contradiction].
    exact HR.
  - exact HR.
Qed.


Section CoreExtra.
Context {T H : Type}.

(** X1: on a pending promise, the first of any sequence of [Resolve]/[Reject]
    calls settles it, and the whole sequence hands back the queued handler
    list exactly once, in list order: every later call drains nothing. *)
Theorem handlers_drained_once (p : Promise T H) (c : settle_call T) (cs : list (settle_call T)) :
  state p = Pending ->
  apply_calls p (c :: cs) = (fst (apply_call p c), handlers p) /\
  state (fst (apply_call p c)) <> Pending.
Proof.
  intros Hp. simpl.
  destruct c as [v|e]; simpl; unfold Resolve, Reject, doResolve, doReject; rewrite Hp; simpl;
    (rewrite apply_calls_settled by (simpl; discriminate)); simpl;
    (split; [by rewrite app_nil_r | discriminate]).
Qed.

(** X2: [Await] on a pending promise blocks after making the signal channel;
    a second [Await] reuses that channel.  A later [Resolve(v)] (resp.
    [Reject(e)]) closes it, hands back the queued handlers, and the woken
    [Await] returns [(v, nil)] (resp. [(zero, e)]). *)
Theorem await_wakes_on_settle (zero : T) (p : Promise T H) (v : T) (e : option error) :
  state p = Pending ->
  let '(p1, st) := Await_enter zero p in
  st = AwaitBlocked /\ signal p1 <> None /\ Await_enter zero p1 = (p1, AwaitBlocked) /\
  (let '(p2, hs) := Resolve p1 v in
   hs = handlers p /\ signal p2 = Some true /\ Await_wake zero p2 Signalled = (v, None)) /\
  (let '(p2, hs) := Reject p1 e in
   hs = handlers p /\ signal p2 = Some true /\ Await_wake zero p2 Signalled = (zero, e)).
Proof.
  intros Hp. unfold Await_enter. rewrite Hp. simpl.
  unfold Resolve, Reject, doResolve, doReject. simpl.
  destruct (signal p) as [b|]; simpl; repeat split; try discriminate; reflexivity.
Qed.

End CoreExtra.

Lemma allsettled_world_fresh : fresh allsettled_world.
Proof.
  intros k Hk. simpl in Hk. cbn [store allsettled_world].
  rewrite !lookup_insert_ne by lia. apply lookup_singleton_ne. lia.
Qed.

Lemma handlers_drained_once_witness :
  state (mkPromise Pending 0 None [7; 8] None : Promise nat nat) = Pending /\
  apply_calls (mkPromise Pending 0 None [7; 8] None : Promise nat nat)
    [CallResolve 1; CallReject None; CallResolve 2] =
    (mkPromise Fulfilled 1 None [] None, [7; 8]) /\
  state (mkPromise Fulfilled 1 None [] None : Promise nat nat) <> Pending.
Proof.
  split; [reflexivity|].
  exact (handlers_drained_once (mkPromise Pending 0 None [7; 8] None : Promise nat nat)
           (CallResolve 1) [CallReject None; CallResolve 2] eq_refl).
Defined.

Lemma await_wakes_on_settle_witness :
  state (mkPromise Pending 0 None [7] None : Promise nat nat) = Pending /\
  (let '(p1, st) := Await_enter 0 (mkPromise Pending 0 None [7] None : Promise nat nat) in
   st = AwaitBlocked /\ signal p1 <> None /\ Await_enter 0 p1 = (p1, AwaitBlocked) /\
   (let '(p2, hs) := Resolve p1 5 in
    hs = [7] /\ signal p2 = Some true /\ Await_wake 0 p2 Signalled = (5, None)) /\
   (let '(p2, hs) := Reject p1 (Some (mkError "bad")) in
    hs = [7] /\ signal p2 = Some true /\ Await_wake 0 p2 Signalled = (0, Some (mkError "bad")))).
Proof.
  split; [reflexivity|].
  exact (await_wakes_on_settle 0 (mkPromise Pending 0 None [7] None : Promise nat nat) 5
           (Some (mkError "bad")) eq_refl).
Defined.

Lemma then_fulfilled_user_witness :
  fresh allsettled_world /\
  store allsettled_world !! 0 = Some (mkPromise Fulfilled (VStr "ok") None [] None) /\
  state (mkPromise Fulfilled (VStr "ok") None [] None : prom) = Fulfilled /\
  match Then (run_handlers 1) 0 (Some (OnFUser "f" (fun v => Ret (VList [v])))) None
         allsettled_world with
  | Some (c, w') =>
      exists pc, store w' !! c = Some pc /\ handlers pc = [] /\
        outcome_of pc = Some (OFul (VList [VStr "ok"])) /\
        log w' = [] ++ ["f"] /\
        store w' !! 0 = Some (mkPromise Fulfilled (VStr "ok") None [] None)
  | None => False
  end.
Proof.
  split; [exact allsettled_world_fresh|]. split; [reflexivity|]. split; [reflexivity|].
  exact (then_fulfilled_user 1 allsettled_world 0 (mkPromise Fulfilled (VStr "ok") None [] None)
           "f" (fun v => Ret (VList [v])) None allsettled_world_fresh eq_refl eq_refl).
Defined.

Lemma then_rejected_source_witness :
  fresh allsettled_world /\
  store allsettled_world !! 1 = Some (mkPromise Rejected VUnit (Some (mkError "bad")) [] None) /\
  state (mkPromise Rejected VUnit (Some (mkError "bad")) [] None : prom) = Rejected /\
  (forall x, Some (OnRUser "g" (fun _ => Raise (PanicVal "boom"))) <> Some (OnRMap x)) /\
  match Then (run_handlers 1) 1 (Some (OnFUser "f" (fun v => Ret v)))
         (Some (OnRUser "g" (fun _ => Raise (PanicVal "boom")))) allsettled_world with
  | Some (c, w') =>
      exists pc, store w' !! c = Some pc /\ handlers pc = [] /\
        outcome_of pc = Some (ORej (Some (panic_error (PanicVal "boom")))) /\
        log w' = [] ++ ["g"] /\
        store w' !! 1 = Some (mkPromise Rejected VUnit (Some (mkError "bad")) [] None)
  | None => False
  end.
Proof.
  assert (Hm : forall x, Some (OnRUser "g" (fun _ => Raise (PanicVal "boom"))) <> Some (OnRMap x))
    by (intros x; discriminate).
  split; [exact allsettled_world_fresh|]. split; [reflexivity|]. split; [reflexivity|].
  split; [exact Hm|].
  exact (then_rejected_source 1 allsettled_world 1
           (mkPromise Rejected VUnit (Some (mkError "bad")) [] None)
           (Some (OnFUser "f" (fun v => Ret v))) (Some (OnRUser "g" (fun _ => Raise (PanicVal "boom"))))
           allsettled_world_fresh eq_refl eq_refl Hm).
Defined.

Lemma catch_passes_fulfilment_witness :
  fresh allsettled_world /\
  store allsettled_world !! 0 = Some (mkPromise Fulfilled (VStr "ok") None [] None) /\
  state (mkPromise Fulfilled (VStr "ok") None [] None : prom) = Fulfilled /\
  match Catch (run_handlers 1) 0 (Some (OnRUser "g" (fun e => Ret e))) allsettled_world with
  | Some (c, w') =>
      exists pc, store w' !! c = Some pc /\ handlers pc = [] /\
        outcome_of pc = Some (OFul (VStr "ok")) /\ log w' = []
  | None => False
  end.
Proof.
  split; [exact allsettled_world_fresh|]. split; [reflexivity|]. split; [reflexivity|].
  exact (catch_passes_fulfilment 1 allsettled_world 0 (mkPromise Fulfilled (VStr "ok") None [] None)
           (Some (OnRUser "g" (fun e => Ret e))) allsettled_world_fresh eq_refl eq_refl).
Defined.

Lemma tap_preserves_outcome_witness :
  fresh allsettled_world /\
  store allsettled_world !! 1 = Some (mkPromise Rejected VUnit (Some (mkError "bad")) [] None) /\
  state (mkPromise Rejected VUnit (Some (mkError "bad")) [] None : prom) <> Pending /\
  match Tap (run_handlers 1) VUnit 1 "t" (fun _ _ => Ret tt) allsettled_world with
  | Some (c, w') =>
      exists pc, store w' !! c = Some pc /\ handlers pc = [] /\
        outcome_of pc = Some (ORej (Some (mkError "bad"))) /\ log w' = [] ++ ["t"]
  | None => False
  end.
Proof.
  assert (Hs : state (mkPromise Rejected VUnit (Some (mkError "bad")) [] None : prom) <> Pending)
    by discriminate.
  split; [exact allsettled_world_fresh|]. split; [reflexivity|]. split; [exact Hs|].
  exact (tap_preserves_outcome 1 allsettled_world VUnit 1
           (mkPromise Rejected VUnit (Some (mkError "bad")) [] None) "t" (fun _ _ => Ret tt)
           allsettled_world_fresh eq_refl Hs).
Defined.

Lemma map_rejected_source_witness :
  fresh allsettled_world /\
  store allsettled_world !! 1 = Some (mkPromise Rejected VUnit (Some (mkError "bad")) [] None) /\
  state (mkPromise Rejected VUnit (Some (mkError "bad")) [] None : prom) = Rejected /\
  match Map (run_handlers 1) 1 (fun v => Ret (v, None)) allsettled_world with
  | Some (out, w') =>
      exists po, store w' !! out = Some po /\ handlers po = [] /\
        outcome_of po = Some (ORej (Some (mkError "bad"))) /\ log w' = []
  | None => False
  end.
Proof.
  split; [exact allsettled_world_fresh|]. split; [reflexivity|]. split; [reflexivity|].
  exact (map_rejected_source 1 allsettled_world 1
           (mkPromise Rejected VUnit (Some (mkError "bad")) [] None) (fun v => Ret (v, None))
           allsettled_world_fresh eq_refl eq_refl).
Defined.


Lemma then_chain_on_resolve_witness :
  fresh allsettled_world /\
  store allsettled_world !! 2 = Some (mkPromise Pending VUnit None [] None) /\
  state (mkPromise Pending VUnit None [] None : prom) = Pending /\
  handlers (mkPromise Pending VUnit None [] None : prom) = [] /\ 2 <= 2 /\
  match (c1 <-- Then (run_handlers 2) 2 (Some (OnFUser "f" (fun v => Ret (VList [v])))) None ;
         c2 <-- Then (run_handlers 2) c1 (Some (OnFUser "g" (fun v => Ret (VList [v])))) None ;
         settle (run_handlers 2) 2 (OFul (VInt 1)) ;;; mret c2) allsettled_world with
  | Some (c2, w') =>
      exists pc, store w' !! c2 = Some pc /\
        outcome_of pc = Some (OFul (VList [VList [VInt 1]])) /\
        log w' = [] ++ ["f"; "g"]
  | None => False
  end.
Proof.
  split; [exact allsettled_world_fresh|]. split; [reflexivity|]. split; [reflexivity|].
  split; [reflexivity|]. split; [lia|].
  exact (then_chain_on_resolve 2 allsettled_world 2 (mkPromise Pending VUnit None [] None)
           "f" "g" (fun v => Ret (VList [v])) (fun v => Ret (VList [v])) (VInt 1)
           allsettled_world_fresh eq_refl eq_refl eq_refl (le_n 2)).
Defined.

Lemma then_settle_commute_witness :
  fresh allsettled_world /\
  store allsettled_world !! 2 = Some (mkPromise Pending VUnit None [] None) /\
  state (mkPromise Pending VUnit None [] None : prom) = Pending /\
  handlers (mkPromise Pending VUnit None [] None : prom) = [] /\ 1 <= 1 /\
  (forall m x, Some (OnFUser "f" (fun v => Ret v)) <> Some (OnFMap m x)) /\
  (forall x, (None : option on_rejected) <> Some (OnRMap x)) /\
  is_Some ((c <-- Then (run_handlers 1) 2 (Some (OnFUser "f" (fun v => Ret v))) None ;
            settle (run_handlers 1) 2 (OFul (VInt 1)) ;;; mret c) allsettled_world) /\
  (c <-- Then (run_handlers 1) 2 (Some (OnFUser "f" (fun v => Ret v))) None ;
   settle (run_handlers 1) 2 (OFul (VInt 1)) ;;; mret c) allsettled_world =
  (settle (run_handlers 1) 2 (OFul (VInt 1)) ;;;
   Then (run_handlers 1) 2 (Some (OnFUser "f" (fun v => Ret v))) None) allsettled_world.
Proof.
  assert (HF : forall m x, Some (OnFUser "f" (fun v => Ret v)) <> Some (OnFMap m x))
    by (intros m x; discriminate).
  assert (HR : forall x, (None : option on_rejected) <> Some (OnRMap x))
    by (intros x; discriminate).
  split; [exact allsettled_world_fresh|]. split; [reflexivity|]. split; [reflexivity|].
  split; [reflexivity|]. split; [lia|]. split; [exact HF|]. split; [exact HR|].
  exact (then_settle_commute 1 allsettled_world 2 (mkPromise Pending VUnit None [] None)
           (Some (OnFUser "f" (fun v => Ret v))) None (OFul (VInt 1))
           allsettled_world_fresh eq_refl eq_refl eq_refl (le_n 1) HF HR).
Defined.

Lemma then_pending_defers_witness :
  fresh allsettled_world /\
  store allsettled_world !! 2 = Some (mkPromise Pending VUnit None [] None) /\
  state (mkPromise Pending VUnit None [] None : prom) = Pending /\
  match Then (run_handlers 1) 2 (Some (OnFUser "f" (fun v => Ret v))) None allsettled_world with
  | Some (c, w') =>
      store w' !! c = Some empty_promise /\
      store w' !! 2 = Some (mkPromise Pending VUnit None
                              [HThen 2 c (Some (OnFUser "f" (fun v => Ret v))) None] None) /\
      (forall k, k <> c -> k <> 2 -> store w' !! k = store allsettled_world !! k) /\
      log w' = [] /\ aggs w' = ∅
  | None => False
  end.
Proof.
  split; [exact allsettled_world_fresh|]. split; [reflexivity|]. split; [reflexivity|].
  exact (then_pending_defers 1 allsettled_world 2 (mkPromise Pending VUnit None [] None)
           (Some (OnFUser "f" (fun v => Ret v))) None allsettled_world_fresh eq_refl eq_refl).
Defined.
